(** * scs-mails.py: the UDM dump parser, the name normalizer and the merge

    A shallow embedding of [readUDM], [normalizeName], [nameMatch],
    [udmMail] and [githubMail] of [scs-mails.py], and the properties of
    the directory parser and of the name-matching join that hold on it. *)

From Stdlib Require Import Ascii.
From stdpp Require Import base decidable numbers option list strings gmap.

Local Open Scope list_scope.

(** ** Python values *)

(** A Python [str] is a sequence of Unicode code points. Slices, [strip]
    and [replace] all count in code points, so a line is a list of them. *)
Module Py.

Definition char := N.
Definition str := list N.

(** An ASCII literal of the source, as code points. *)
Definition lit (s : string) : str := Ascii.N_of_ascii <$> String.list_ascii_of_string s.

(** [s[a:b]], [s[:b]] is [take b s] and [s[a:]] is [drop a s]; none of
    them raises when the bounds exceed the length. *)
Definition slice (a b : nat) (s : str) : str := take (b - a) (drop a s).

(** [s.lstrip(chars)] *)
Fixpoint lstrip (chars : list char) (s : str) : str :=
  match s with
  | [] => []
  | c :: s' => if decide (c ∈ chars) then lstrip chars s' else s
  end.

(** [s.rstrip(chars)] *)
Definition rstrip (chars : list char) (s : str) : str :=
  reverse (lstrip chars (reverse s)).

(** [s.strip(chars)]: both ends. *)
Definition strip (chars : list char) (s : str) : str :=
  rstrip chars (lstrip chars s).

(** [s.replace(old, new)] for a one-character [old]: every needle of
    [normalizeName] is a single code point. *)
Definition replace (old : char) (new : str) (s : str) : str :=
  s ≫= (λ c, if decide (c = old) then new else [c]).

(** Exceptions the modelled statements can raise. [DanglingRef] is the
    model's own: a reference to an object that is not in the store. *)
Inductive exn := ValueError | DanglingRef.

Inductive result (A : Type) : Type :=
| Ok (a : A)
| Raise (e : exn).
Arguments Ok {A} a.
Arguments Raise {A} e.

#[global] Instance result_bind : MBind result := λ A B k m,
  match m with
  | Ok a => k a
  | Raise e => Raise e
  end.

(** [l.remove(x)]: drops the first occurrence, [ValueError] when there
    is none. *)
Fixpoint list_remove (x : str) (l : list str) : result (list str) :=
  match l with
  | [] => Raise ValueError
  | y :: l' =>
      if decide (x = y) then Ok l'
      else r ← list_remove x l'; Ok (y :: r)
  end.

End Py.

Import Py.

(** ** The objects *)

(** [class MailUser]: a github org member. *)
Module MailUser.
Record t := mk { ghnm : str; name : str; ucsnm : str; mls : list str }.

(** [MailUser(ghnm, name)] *)
Definition init (ghnm name : str) : t :=
  {| ghnm := ghnm; name := name; ucsnm := []; mls := [] |}.
End MailUser.

(** [class UdmUser]: a UCS user of the dump. *)
Module UdmUser.
Record t := mk { uid : str; name : str; gecos : str; mls : list str }.

(** [UdmUser(uid, name)]; [name] defaults to the empty string where the
    caller leaves it out. *)
Definition init (uid name : str) : t :=
  {| uid := uid; name := name; gecos := name; mls := [] |}.

Definition set_name (v : str) (u : t) : t :=
  {| uid := uid u; name := v; gecos := gecos u; mls := mls u |}.
Definition set_gecos (v : str) (u : t) : t :=
  {| uid := uid u; name := name u; gecos := v; mls := mls u |}.
Definition set_mls (v : list str) (u : t) : t :=
  {| uid := uid u; name := name u; gecos := gecos u; mls := v |}.
End UdmUser.

(** [githubMail(user, gh)]; [email] is what [gh.get_user(user.ghnm).email]
    answered, [None] or a string. *)
Definition githubMail (user : MailUser.t) (email : option str) : MailUser.t :=
  match email with
  | Some (c :: e) =>
      if decide (c :: e ∈ MailUser.mls user) then user
      else {| MailUser.ghnm := MailUser.ghnm user;
              MailUser.name := MailUser.name user;
              MailUser.ucsnm := MailUser.ucsnm user;
              MailUser.mls := MailUser.mls user ++ [c :: e] |}
  | _ => user
  end.

(** ** readUDM *)

Definition comma : char := 44%N.

(** [uidre.match(s)], where [uidre] is the compiled pattern: the literal
    [uid=], a group of any number of non-comma characters, a comma.
    [match] anchors at the start of [s]. The group is greedy and takes the
    longest run of non-comma characters; a comma must follow it. A shorter
    group cannot match instead, since none of its characters is a comma.
    The result is [m.group(1)], [None] when there is no match. *)
Fixpoint not_comma_star (s : str) : str * str :=
  match s with
  | [] => ([], [])
  | c :: s' =>
      if decide (c = comma) then ([], s)
      else let '(g, r) := not_comma_star s' in (c :: g, r)
  end.

Definition uidre_match (s : str) : option str :=
  if decide (take 4 s = lit "uid=") then
    match not_comma_star (drop 4 s) with
    | (g, c :: _) => if decide (c = comma) then Some g else None
    | (_, []) => None
    end
  else None.

(** The loop's variables: the list [udm], the reference [usr] (an index
    into [udm], whose element it aliases, or [None]) and what was printed
    to [sys.stderr], one entry per [print]. *)
Record pstate := mkst
  { udm : list UdmUser.t; usr : option nat; stderr : list str }.

Definition readUDM_init : pstate := {| udm := []; usr := None; stderr := [] |}.

Definition CRLF : list char := [13; 10]%N.

Definition dn_warning (ln : str) : str :=
  lit "Warning: DN line without uid= match: " ++ ln.

(** The [if ln[:4] == "DN: "] block. *)
Definition new_record (ln : str) (st : pstate) : pstate :=
  if decide (take 4 ln = lit "DN: ") then
    match uidre_match (drop 4 ln) with
    | Some g1 =>
        {| udm := udm st ++ [UdmUser.init g1 []];
           usr := Some (length (udm st));
           stderr := stderr st |}
    | None =>
        {| udm := udm st; usr := None;
           stderr := stderr st ++ [dn_warning ln] |}
    end
  else st.

(** The [if]/[elif] chain on the field keys, on the object [u] that [usr]
    refers to. *)
Definition parse_field (ln : str) (u : UdmUser.t) : result UdmUser.t :=
  if decide (slice 2 14 ln = lit "displayName:") then
    Ok (UdmUser.set_name (drop 15 ln) u)
  else if decide (slice 2 21 ln = lit "mailForwardAddress:") then
    m ← (if decide (drop 22 ln ∈ UdmUser.mls u)
         then list_remove (drop 22 ln) (UdmUser.mls u)
         else Ok (UdmUser.mls u));
    Ok (UdmUser.set_mls (drop 22 ln :: m) u)
  else if decide (slice 2 9 ln = lit "e-mail:") then
    if decide (drop 10 ln ∉ UdmUser.mls u)
    then Ok (UdmUser.set_mls (UdmUser.mls u ++ [drop 10 ln]) u)
    else Ok u
  else if decide (slice 2 8 ln = lit "gecos:") then
    Ok (UdmUser.set_gecos (drop 9 ln) u)
  else Ok u.

(** The object behind reference [i] becomes [u]; the list [udm] sees the
    change, since it holds the same object. *)
Definition store (st : pstate) (i : nat) (u : UdmUser.t) : pstate :=
  {| udm := <[i := u]> (udm st); usr := usr st; stderr := stderr st |}.

(** One turn of [for ln in file]. *)
Definition readUDM_line (st : pstate) (ln0 : str) : result pstate :=
  let ln := strip CRLF ln0 in
  let st := new_record ln st in
  match usr st with
  | None => Ok st
  | Some i =>
      match udm st !! i with
      | None => Raise DanglingRef
      | Some u => u' ← parse_field ln u; Ok (store st i u')
      end
  end.

Fixpoint readUDM_loop (st : pstate) (file : list str) : result pstate :=
  match file with
  | [] => Ok st
  | ln :: file' => st' ← readUDM_line st ln; readUDM_loop st' file'
  end.

(** The whole run, with what it printed. *)
Definition readUDM_run (file : list str) : result pstate :=
  readUDM_loop readUDM_init file.

(** [readUDM(fnm)], on the lines of the opened file. *)
Definition readUDM (file : list str) : result (list UdmUser.t) :=
  st ← readUDM_run file; Ok (udm st).

(** ** normalizeName, nameMatch, udmMail *)

Definition space : char := 32%N.
Definition hyphen : char := 45%N.

(** The [nm.replace] lines of [normalizeName], in source order. *)
Definition translit : list (char * str) :=
  [ (228, lit "ae"); (246, lit "oe"); (252, lit "ue");
    (196, lit "Ae"); (214, lit "Oe"); (220, lit "Ue");
    (223, lit "ss");
    (233, lit "e"); (232, lit "e"); (235, lit "e");
    (225, lit "a"); (229, lit "a");
    (230, lit "ae"); (339, lit "oe"); (248, lit "o"); (307, lit "ij");
    (255, lit "y"); (253, lit "y");
    (382, lit "z"); (353, lit "s"); (269, lit "c"); (231, lit "c");
    (241, lit "n"); (324, lit "n"); (322, lit "l");
    (hyphen, lit " ") ]%N.

(** [nm = nm.replace(old, new)], line after line down the table. *)
Definition replace_all (t : list (char * str)) (nm : str) : str :=
  foldl (λ nm '(old, new), replace old new nm) nm t.

Definition normalizeName (nm : str) : str :=
  let nm := if decide (take 3 nm = lit "Dr.") then drop 3 nm else nm in
  let nm := strip [space] nm in
  replace_all translit nm.

Definition nameMatch (nm1 nm2 : str) : bool :=
  if decide (nm1 = nm2) then true
  else if decide (normalizeName nm1 = normalizeName nm2) then true
  else false.

(** The body of [for udmuser in udm]. *)
Definition udmMail_step (user : MailUser.t) (udmuser : UdmUser.t) : MailUser.t :=
  if nameMatch (MailUser.name user) (UdmUser.name udmuser)
     || nameMatch (MailUser.name user) (UdmUser.gecos udmuser)
  then
    {| MailUser.ghnm := MailUser.ghnm user;
       MailUser.name := MailUser.name user;
       MailUser.ucsnm := UdmUser.uid udmuser;
       MailUser.mls :=
         foldl (λ m ml, m ++ [ml]) (MailUser.mls user) (UdmUser.mls udmuser) |}
  else user.

Definition udmMail (user : MailUser.t) (udm : list UdmUser.t) : MailUser.t :=
  foldl udmMail_step user udm.

(** ** Vocabulary of the statements *)

(** What a line contributes as a record boundary: the id of the record it
    opens, or the warning it prints. *)
Definition line_uid (ln0 : str) : option str :=
  let ln := strip CRLF ln0 in
  if decide (take 4 ln = lit "DN: ") then uidre_match (drop 4 ln) else None.

Definition line_warning (ln0 : str) : option str :=
  let ln := strip CRLF ln0 in
  if decide (take 4 ln = lit "DN: ") then
    match uidre_match (drop 4 ln) with
    | Some _ => None
    | None => Some (dn_warning ln)
    end
  else None.

(** A line that is not a record boundary. *)
Definition plain_field (ln0 : str) : Prop :=
  take 4 (strip CRLF ln0) ≠ lit "DN: ".

(** A line that the [displayName] test rejects. *)
Definition no_displayName (ln0 : str) : Prop :=
  slice 2 14 (strip CRLF ln0) ≠ lit "displayName:".

(** A [DN: ] line from which the pattern extracts no id. *)
Definition bad_dn (ln0 : str) : Prop :=
  take 4 (strip CRLF ln0) = lit "DN: " ∧
  uidre_match (drop 4 (strip CRLF ln0)) = None.

(** The characters [normalizeName] replaces. *)
Definition translit_keys : list char := translit.*1.

(** What a matching record does to the merged person. *)
Definition attach (user : MailUser.t) (r : UdmUser.t) : MailUser.t :=
  {| MailUser.ghnm := MailUser.ghnm user;
     MailUser.name := MailUser.name user;
     MailUser.ucsnm := UdmUser.uid r;
     MailUser.mls := MailUser.mls user ++ UdmUser.mls r |}.

(** Where a record's block ends: at the end of the input or at the next
    [DN: ] line. *)
Definition block_end (post : list str) : Prop :=
  ∀ b, head post = Some b → take 4 (strip CRLF b) = lit "DN: ".

(** The reference [usr], when set, points into [udm]. *)
Definition wf (st : pstate) : Prop :=
  ∀ i, usr st = Some i → is_Some (udm st !! i).

(** A record's mail list has no duplicates. *)
Definition nodup_mls (u : UdmUser.t) : Prop := NoDup (UdmUser.mls u).

(** The line [DN: uid=<id>,<rest>]. *)
Definition dn_line (id rest : str) : str :=
  lit "DN: uid=" ++ id ++ comma :: rest.

(** What the table does to one character: the text of the first line of
    the table that replaces it, the character itself when none does. *)
Fixpoint subst_char (t : list (char * str)) (c : char) : str :=
  match t with
  | [] => [c]
  | (old, new) :: t' => if decide (c = old) then new else subst_char t' c
  end.

(** The test of [udmMail] on one record, for the roster name [nm]. *)
Definition matches (nm : str) (r : UdmUser.t) : bool :=
  nameMatch nm (UdmUser.name r) || nameMatch nm (UdmUser.gecos r).

(** The [if]/[elif] chain of [readUDM] on the field keys, as a classifier
    of the stripped line: which branch is taken and with which value. *)
Inductive field :=
| DisplayName (v : str)
| Forward (v : str)
| Email (v : str)
| Gecos (v : str)
| Other.

Definition classify (ln : str) : field :=
  if decide (slice 2 14 ln = lit "displayName:") then DisplayName (drop 15 ln)
  else if decide (slice 2 21 ln = lit "mailForwardAddress:") then Forward (drop 22 ln)
  else if decide (slice 2 9 ln = lit "e-mail:") then Email (drop 10 ln)
  else if decide (slice 2 8 ln = lit "gecos:") then Gecos (drop 9 ln)
  else Other.

(** What a line of the file is, for the current record. *)
Definition field_of (ln0 : str) : field := classify (strip CRLF ln0).

Definition displayName_of (ln0 : str) : option str :=
  match field_of ln0 with DisplayName v => Some v | _ => None end.

Definition gecos_of (ln0 : str) : option str :=
  match field_of ln0 with Gecos v => Some v | _ => None end.

Definition forward_of (ln0 : str) : option str :=
  match field_of ln0 with Forward v => Some v | _ => None end.

Definition mail_of (ln0 : str) : option str :=
  match field_of ln0 with Forward v | Email v => Some v | _ => None end.

(** The field lines of one block, applied in turn to its record. *)
Fixpoint parse_fields (fields : list str) (u : UdmUser.t) : result UdmUser.t :=
  match fields with
  | [] => Ok u
  | ln :: fields' =>
      u' ← parse_field (strip CRLF ln) u; parse_fields fields' u'
  end.

(** ** Output and the roster *)

(** [SEP], the separator of the CSV output. *)
Definition SEP : str := lit ",".

(** [sep.join(l)] *)
Fixpoint join (sep : str) (l : list str) : str :=
  match l with
  | [] => []
  | x :: l' =>
      match l' with
      | [] => x
      | _ :: _ => x ++ sep ++ join sep l'
      end
  end.

(** [MailUser.__str__]: the CSV line of an entry. *)
Definition MailUser_str (user : MailUser.t) : str :=
  MailUser.ghnm user ++ SEP ++ MailUser.name user ++ SEP ++
  MailUser.ucsnm user ++ SEP ++ join SEP (MailUser.mls user).

(** [UdmUser.__repr__] *)
Definition UdmUser_repr (u : UdmUser.t) : str :=
  UdmUser.uid u ++ SEP ++ UdmUser.name u ++ SEP ++
  UdmUser.gecos u ++ SEP ++ join SEP (UdmUser.mls u).

(** [parseOrgData], on the document that [yaml.safe_load] returned, for a
    document that maps [members] to a list of mappings from strings to
    strings. [d[k]] raises [KeyError] when [d] has no key [k]. *)
Inductive KeyError := mkKeyError (key : str).

Definition getitem {V} (d : gmap str V) (k : str) : KeyError + V :=
  match d !! k with
  | Some v => inr v
  | None => inl (mkKeyError k)
  end.

Fixpoint parseOrgData_members (members : list (gmap str str))
  : KeyError + list MailUser.t :=
  match members with
  | [] => inr []
  | member :: members' =>
      match getitem member (lit "login") with
      | inl e => inl e
      | inr login =>
          match getitem member (lit "name") with
          | inl e => inl e
          | inr name =>
              match parseOrgData_members members' with
              | inl e => inl e
              | inr users => inr (MailUser.init login name :: users)
              end
          end
      end
  end.

Definition parseOrgData (y : gmap str (list (gmap str str)))
  : KeyError + list MailUser.t :=
  match getitem y (lit "members") with
  | inl e => inl e
  | inr members => parseOrgData_members members
  end.

(** [s.split(",")], the reading of a CSV line. *)
Fixpoint split_sep (s : str) : list str :=
  match s with
  | [] => [[]]
  | c :: s' =>
      if decide (c = comma) then [] :: split_sep s'
      else match split_sep s' with
           | [] => [[c]]
           | x :: xs => (c :: x) :: xs
           end
  end.

(** ** Proof steps used throughout *)

(** A given character is none of a literal list of characters. *)
Ltac not_in_chars :=
  let H := fresh in
  intros H; repeat (apply elem_of_cons in H as [H|H]; [discriminate H|]);
  by apply elem_of_nil in H.

(** Two strings differ in a character that evaluation reaches. *)
Ltac key_differs :=
  let H := fresh in intros H; vm_compute in H; discriminate H.

(** ** Sample data *)

Definition sample_block : list str :=
  [ lit "DN: uid=jdoe,cn=users,dc=example,dc=org";
    lit "  mailForwardAddress: a@x";
    lit "  e-mail: b@x";
    lit "  mailForwardAddress: c@x" ].

(** Two accounts of one person, with the same address. *)
Definition two_accounts : list str :=
  [ lit "DN: uid=jdoe,cn=users,dc=example,dc=org";
    lit "  displayName: Jane Doe";
    lit "  e-mail: jane@example.org";
    lit "DN: uid=jdoe-adm,cn=users,dc=example,dc=org";
    lit "  displayName: Jane Doe";
    lit "  e-mail: jane@example.org" ].

(** The roster name of the example, A-umlaut and u-umlaut as the code
    points U+00C4 and U+00FC. *)
Definition A_Mueller : str :=
  [196%N] ++ lit ". M" ++ [252%N] ++ lit "ller".

Definition mueller_user : MailUser.t :=
  MailUser.init (lit "amueller") A_Mueller.

Definition mueller_rec : UdmUser.t :=
  {| UdmUser.uid := lit "am"; UdmUser.name := [];
     UdmUser.gecos := lit "Ae. Mueller"; UdmUser.mls := [lit "am@x"] |}.

(** A parser state with one record, which is the current one. *)
Definition active_rec : UdmUser.t :=
  {| UdmUser.uid := lit "jdoe"; UdmUser.name := []; UdmUser.gecos := [];
     UdmUser.mls := [lit "b@x"] |}.

Definition active_state : pstate :=
  {| udm := [active_rec]; usr := Some 0; stderr := [] |}.

(** A dump of two records, the second with a title in its display name. *)
Definition titled_dump : list str :=
  sample_block ++
  [ lit "DN: uid=jane,cn=users,dc=example,dc=org";
    lit "  displayName: Dr. Jane Doe";
    lit "  e-mail: jane@x" ].

Definition titled_rec : UdmUser.t :=
  {| UdmUser.uid := lit "jane"; UdmUser.name := lit "Dr. Jane Doe";
     UdmUser.gecos := []; UdmUser.mls := [lit "jane@x"] |}.

Definition jane_user : MailUser.t := MailUser.init (lit "jd") (lit "Jane Doe").

Example sample_block_parse :
  readUDM sample_block =
  Ok [ {| UdmUser.uid := lit "jdoe"; UdmUser.name := []; UdmUser.gecos := [];
          UdmUser.mls := [lit "c@x"; lit "a@x"; lit "b@x"] |} ].
Proof. vm_compute. reflexivity. Qed.

(** ** Strings: strip and the identifier pattern *)

Section strip.
Variable chars : list char.

Lemma lstrip_app_notin x c y :
  c ∉ chars → lstrip chars (x ++ c :: y) = lstrip chars x ++ c :: y.
Proof.
  intros Hc. induction x as [|a x IH]; simpl.
  - by rewrite decide_False.
  - destruct (decide (a ∈ chars)); [exact IH | reflexivity].
Qed.

Lemma rstrip_app_notin x c y :
  c ∉ chars → rstrip chars (x ++ c :: y) = x ++ c :: rstrip chars y.
Proof.
  intros Hc. unfold rstrip.
  rewrite reverse_app, reverse_cons, <- (assoc_L (++)). simpl.
  rewrite lstrip_app_notin by done.
  rewrite reverse_app, reverse_cons, reverse_involutive.
  by rewrite <- (assoc_L (++)).
Qed.

Lemma rstrip_nil : rstrip chars [] = [].
Proof. reflexivity. Qed.

(** A string whose ends are not in [chars] is left alone. *)
Lemma strip_id s :
  (∀ c, head s = Some c → c ∉ chars) →
  (∀ c, last s = Some c → c ∉ chars) →
  strip chars s = s.
Proof.
  intros Hh Hl. unfold strip.
  destruct s as [|a s]; [reflexivity|].
  simpl. rewrite decide_False by (apply Hh; reflexivity).
  destruct (last (a :: s)) as [c|] eqn:E; [|by apply last_None in E].
  apply last_Some in E as [x E].
  rewrite E. rewrite rstrip_app_notin by (by apply Hl). by rewrite rstrip_nil.
Qed.
End strip.

Lemma not_comma_star_app g rest :
  comma ∉ g → not_comma_star (g ++ comma :: rest) = (g, comma :: rest).
Proof.
  induction g as [|c g IH]; intros Hg.
  - reflexivity.
  - apply not_elem_of_cons in Hg as [Hc Hg]. simpl.
    rewrite decide_False by done. by rewrite IH.
Qed.

Lemma not_comma_star_split s g r :
  not_comma_star s = (g, r) → s = g ++ r ∧ comma ∉ g.
Proof.
  revert g r. induction s as [|c s IH]; intros g r; simpl.
  - intros [= <- <-]. split; [done | apply not_elem_of_nil].
  - destruct (decide (c = comma)) as [->|Hc].
    + intros [= <- <-]. split; [done | apply not_elem_of_nil].
    + destruct (not_comma_star s) as [g' r'] eqn:E.
      intros [= <- <-]. destruct (IH _ _ eq_refl) as [-> Hg].
      split; [done |]. apply not_elem_of_cons. by split.
Qed.

(** The pattern matches exactly the strings [uid=<g>,<rest>] with a
    comma-free [<g>], and the group is [<g>]. *)
Lemma uidre_match_Some s g :
  uidre_match s = Some g ↔
  ∃ rest, s = lit "uid=" ++ g ++ comma :: rest ∧ comma ∉ g.
Proof.
  unfold uidre_match. split.
  - destruct (decide (take 4 s = lit "uid=")) as [Hp|]; [|done].
    destruct (not_comma_star (drop 4 s)) as [g' r] eqn:E.
    destruct r as [|c r]; [done|].
    destruct (decide (c = comma)) as [->|]; [|done].
    intros [= ->]. apply not_comma_star_split in E as [E Hg].
    exists r. split; [|done].
    transitivity (take 4 s ++ drop 4 s); [by rewrite take_drop|].
    by rewrite Hp, E.
  - intros (rest & -> & Hg).
    change (take 4 (lit "uid=" ++ g ++ comma :: rest)) with (lit "uid=").
    rewrite decide_True by done.
    change (drop 4 (lit "uid=" ++ g ++ comma :: rest)) with (g ++ comma :: rest).
    rewrite not_comma_star_app by done. by rewrite decide_True.
Qed.

Lemma strip_dn_line id rest :
  strip CRLF (dn_line id rest) = dn_line id (rstrip CRLF rest).
Proof.
  unfold strip, dn_line.
  change (lstrip CRLF (lit "DN: uid=" ++ id ++ comma :: rest))
    with (lit "DN: uid=" ++ id ++ comma :: rest).
  rewrite (assoc_L (++)), rstrip_app_notin; [by rewrite <- (assoc_L (++))|].
  unfold CRLF, comma. rewrite !not_elem_of_cons. repeat split; try done.
  apply not_elem_of_nil.
Qed.

(** ** The parser: what one line does *)

Lemma list_remove_elem x l :
  x ∈ l → ∃ k, list_remove x l = Ok k ∧ l ≡ₚ x :: k.
Proof.
  induction l as [|y l IH]; intros Hx; [by apply elem_of_nil in Hx|].
  simpl. destruct (decide (x = y)) as [->|Hne]; [by eexists|].
  apply elem_of_cons in Hx as [?|Hx]; [done|].
  destruct (IH Hx) as (k & -> & Hk). exists (y :: k). split; [done|].
  rewrite Hk. apply Permutation_swap.
Qed.

Lemma filter_ne_notin (x : str) (l : list str) :
  x ∉ l → filter (λ y, y ≠ x) l = l.
Proof.
  induction l as [|y l IH]; [done|].
  intros [Hy Hl]%not_elem_of_cons.
  rewrite filter_cons_True by done. by rewrite IH.
Qed.

Lemma list_remove_filter x l :
  NoDup l → x ∈ l → list_remove x l = Ok (filter (λ y, y ≠ x) l).
Proof.
  induction 1 as [|y l Hy Hl IH]; intros Hx; [by apply elem_of_nil in Hx|].
  simpl. destruct (decide (x = y)) as [->|Hne].
  - rewrite filter_cons_False by (intros H; by apply H).
    by rewrite filter_ne_notin.
  - apply elem_of_cons in Hx as [?|Hx]; [done|].
    rewrite (IH Hx). by rewrite filter_cons_True.
Qed.

Lemma parse_field_ok ln u :
  ∃ u', parse_field ln u = Ok u' ∧
        UdmUser.uid u' = UdmUser.uid u ∧
        (nodup_mls u → nodup_mls u') ∧
        (slice 2 14 ln ≠ lit "displayName:" → UdmUser.name u' = UdmUser.name u).
Proof.
  unfold parse_field, nodup_mls.
  destruct (decide (slice 2 14 ln = _)); [by eexists|].
  destruct (decide (slice 2 21 ln = _)).
  { destruct (decide (drop 22 ln ∈ UdmUser.mls u)) as [Hin|Hin].
    - destruct (list_remove_elem _ _ Hin) as (k & -> & Hk).
      eexists. repeat split; simpl.
      intros Hnd. rewrite Hk in Hnd. done.
    - eexists. repeat split; simpl. intros Hnd. by apply NoDup_cons. }
  destruct (decide (slice 2 9 ln = _)).
  { destruct (decide (drop 10 ln ∉ UdmUser.mls u)) as [Hin|Hin]; [|by eexists].
    eexists. repeat split; simpl. intros Hnd.
    apply NoDup_app. repeat split; [done| |apply NoDup_singleton].
    intros x Hx ->%list_elem_of_singleton. done. }
  destruct (decide (slice 2 8 ln = _)); by eexists.
Qed.

Lemma new_record_wf ln st : wf st → wf (new_record ln st).
Proof.
  unfold new_record, wf. intros Hwf.
  destruct (decide (take 4 ln = _)); [|done].
  destruct (uidre_match (drop 4 ln)); simpl; [|done].
  intros i [= <-]. rewrite lookup_app_r, Nat.sub_diag by done. by eexists.
Qed.

Lemma new_record_udm ln0 st :
  UdmUser.uid <$> udm (new_record (strip CRLF ln0) st) =
  (UdmUser.uid <$> udm st) ++ option_list (line_uid ln0).
Proof.
  unfold new_record, line_uid. simpl.
  destruct (decide (take 4 _ = _)); simpl; [|by rewrite app_nil_r].
  destruct (uidre_match _); simpl.
  - by rewrite fmap_app.
  - by rewrite app_nil_r.
Qed.

Lemma new_record_stderr ln0 st :
  stderr (new_record (strip CRLF ln0) st) =
  stderr st ++ option_list (line_warning ln0).
Proof.
  unfold new_record, line_warning. simpl.
  destruct (decide (take 4 _ = _)); simpl; [|by rewrite app_nil_r].
  destruct (uidre_match _); simpl; [|done].
  by rewrite app_nil_r.
Qed.

Lemma new_record_nodup ln st :
  Forall nodup_mls (udm st) → Forall nodup_mls (udm (new_record ln st)).
Proof.
  unfold new_record. intros H.
  destruct (decide (take 4 ln = _)); [|done].
  destruct (uidre_match _); simpl; [|done].
  apply Forall_app. split; [done|]. apply Forall_singleton, NoDup_nil_2.
Qed.

Lemma readUDM_line_ok st ln :
  wf st →
  ∃ st', readUDM_line st ln = Ok st' ∧ wf st' ∧
    UdmUser.uid <$> udm st' = (UdmUser.uid <$> udm st) ++ option_list (line_uid ln) ∧
    stderr st' = stderr st ++ option_list (line_warning ln) ∧
    (Forall nodup_mls (udm st) → Forall nodup_mls (udm st')).
Proof.
  intros Hwf. unfold readUDM_line.
  pose proof (new_record_wf (strip CRLF ln) st Hwf) as Hwf1.
  pose proof (new_record_udm ln st) as Hudm.
  pose proof (new_record_stderr ln st) as Herr.
  pose proof (new_record_nodup (strip CRLF ln) st) as Hnd.
  destruct (new_record (strip CRLF ln) st) as [udm1 [i|] err1]; simpl in *;
    [|by eexists].
  destruct (Hwf1 i eq_refl) as [u Hu]. simpl in Hu. rewrite Hu.
  destruct (parse_field_ok (strip CRLF ln) u) as (u' & -> & Huid & Hmls & _).
  eexists. split; [reflexivity|]. unfold store; simpl. repeat split.
  - unfold wf; simpl.
    intros j [= <-]. apply lookup_lt_is_Some. rewrite length_insert.
    by apply lookup_lt_is_Some.
  - rewrite list_fmap_insert, list_insert_id; [done|].
    by rewrite list_lookup_fmap, Hu, Huid.
  - done.
  - intros H. specialize (Hnd H). apply Forall_insert; [done|].
    apply Hmls. exact (Forall_lookup_1 _ _ _ _ Hnd Hu).
Qed.

(** ** The parser: whole runs *)

Lemma readUDM_loop_app st a b :
  readUDM_loop st (a ++ b) = st' ← readUDM_loop st a; readUDM_loop st' b.
Proof.
  revert st. induction a as [|ln a IH]; intros st; [done|].
  simpl. destruct (readUDM_line st ln) as [st1|e]; simpl; [apply IH | done].
Qed.

Lemma readUDM_loop_ok file : ∀ st,
  wf st →
  ∃ st', readUDM_loop st file = Ok st' ∧ wf st' ∧
    UdmUser.uid <$> udm st' = (UdmUser.uid <$> udm st) ++ omap line_uid file ∧
    stderr st' = stderr st ++ omap line_warning file ∧
    (Forall nodup_mls (udm st) → Forall nodup_mls (udm st')).
Proof.
  induction file as [|ln file IH]; intros st Hwf.
  - exists st. simpl. by rewrite !app_nil_r.
  - destruct (readUDM_line_ok st ln Hwf) as (st1 & E1 & Hwf1 & Hu1 & He1 & Hn1).
    destruct (IH st1 Hwf1) as (st' & E' & Hwf' & Hu' & He' & Hn').
    exists st'. simpl. rewrite E1. simpl. split; [done|]. split; [done|].
    rewrite Hu', Hu1, He', He1, <- !(assoc_L (++)).
    repeat split; [| |by auto].
    + f_equal. by destruct (line_uid ln).
    + f_equal. by destruct (line_warning ln).
Qed.

Lemma wf_init : wf readUDM_init.
Proof. by intros i. Qed.

Lemma readUDM_run_ok file :
  ∃ st, readUDM_run file = Ok st ∧ wf st ∧
    (UdmUser.uid <$> udm st) = omap line_uid file ∧
    stderr st = omap line_warning file ∧
    Forall nodup_mls (udm st).
Proof.
  destruct (readUDM_loop_ok file readUDM_init wf_init)
    as (st & E & Hwf & Hu & He & Hn).
  exists st. repeat split; [done..|]. by apply Hn.
Qed.

Lemma readUDM_run_inv file recs :
  readUDM file = Ok recs → ∃ st, readUDM_run file = Ok st ∧ udm st = recs.
Proof.
  unfold readUDM. destruct (readUDM_run file) as [st|]; simpl; [|done].
  intros [= <-]. by eexists.
Qed.

(** ** The parser: record boundaries and field lines *)

(** [strip] keeps a prefix that neither starts nor ends with CR or LF. *)
Lemma strip_keep_prefix p tail a b :
  head p = Some a → a ∉ CRLF → last p = Some b → b ∉ CRLF →
  strip CRLF (p ++ tail) = p ++ rstrip CRLF tail.
Proof.
  intros Ha Hna Hb Hnb. unfold strip.
  apply head_Some in Ha as [p' ->]. simpl.
  rewrite decide_False by done.
  apply last_Some in Hb as [q Hq].
  change (a :: p' ++ tail) with ((a :: p') ++ tail).
  rewrite Hq, <- (assoc_L (++)). simpl. rewrite rstrip_app_notin by done.
  change (a :: p' ++ rstrip CRLF tail) with ((a :: p') ++ rstrip CRLF tail).
  by rewrite Hq, <- (assoc_L (++)).
Qed.

Lemma readUDM_line_dn st id rest :
  comma ∉ id →
  readUDM_line st (dn_line id rest) =
  Ok {| udm := udm st ++ [UdmUser.init id []];
        usr := Some (length (udm st));
        stderr := stderr st |}.
Proof.
  intros Hid. unfold readUDM_line. rewrite strip_dn_line.
  assert (new_record (dn_line id (rstrip CRLF rest)) st =
          {| udm := udm st ++ [UdmUser.init id []];
             usr := Some (length (udm st));
             stderr := stderr st |}) as ->.
  { unfold new_record.
    change (take 4 (dn_line id (rstrip CRLF rest))) with (lit "DN: ").
    rewrite decide_True by done.
    replace (uidre_match _) with (Some id); [done|].
    symmetry. apply uidre_match_Some. by eexists. }
  simpl. rewrite list_lookup_middle by done.
  unfold store. simpl. f_equal. f_equal.
  apply list_insert_id. by apply list_lookup_middle.
Qed.

Section field_lines.
Variables (st : pstate) (i : nat) (u : UdmUser.t).
Hypothesis Husr : usr st = Some i.
Hypothesis Hu : udm st !! i = Some u.

Lemma displayName_line tail c v :
  rstrip CRLF tail = c :: v →
  readUDM_line st (lit "  displayName:" ++ tail) =
  Ok (store st i (UdmUser.set_name v u)).
Proof.
  intros Ht. unfold readUDM_line.
  erewrite strip_keep_prefix; [|reflexivity|not_in_chars|reflexivity|not_in_chars].
  rewrite Ht. unfold new_record. rewrite decide_False by key_differs.
  rewrite Husr, Hu. unfold parse_field.
  rewrite decide_True by reflexivity. reflexivity.
Qed.

Lemma mailForwardAddress_line tail c v :
  rstrip CRLF tail = c :: v →
  readUDM_line st (lit "  mailForwardAddress:" ++ tail) =
  m ← (if decide (v ∈ UdmUser.mls u) then list_remove v (UdmUser.mls u)
       else Ok (UdmUser.mls u));
  Ok (store st i (UdmUser.set_mls (v :: m) u)).
Proof.
  intros Ht. unfold readUDM_line.
  erewrite strip_keep_prefix; [|reflexivity|not_in_chars|reflexivity|not_in_chars].
  rewrite Ht. unfold new_record. rewrite decide_False by key_differs.
  rewrite Husr, Hu. unfold parse_field.
  rewrite decide_False by key_differs.
  rewrite decide_True by reflexivity.
  change (drop 22 (lit "  mailForwardAddress:" ++ c :: v)) with v.
  by destruct (decide (v ∈ UdmUser.mls u)); [destruct (list_remove _ _)|].
Qed.

Lemma email_line tail c v :
  rstrip CRLF tail = c :: v →
  readUDM_line st (lit "  e-mail:" ++ tail) =
  Ok (store st i
        (if decide (v ∈ UdmUser.mls u) then u
         else UdmUser.set_mls (UdmUser.mls u ++ [v]) u)).
Proof.
  intros Ht. unfold readUDM_line.
  erewrite strip_keep_prefix; [|reflexivity|not_in_chars|reflexivity|not_in_chars].
  rewrite Ht. unfold new_record. rewrite decide_False by key_differs.
  rewrite Husr, Hu. unfold parse_field.
  rewrite !decide_False by key_differs.
  rewrite decide_True by reflexivity.
  change (drop 10 (lit "  e-mail:" ++ c :: v)) with v.
  destruct (decide (v ∈ UdmUser.mls u)).
  - by rewrite decide_False by auto.
  - by rewrite decide_True.
Qed.

Lemma gecos_line tail c v :
  rstrip CRLF tail = c :: v →
  readUDM_line st (lit "  gecos:" ++ tail) =
  Ok (store st i (UdmUser.set_gecos v u)).
Proof.
  intros Ht. unfold readUDM_line.
  erewrite strip_keep_prefix; [|reflexivity|not_in_chars|reflexivity|not_in_chars].
  rewrite Ht. unfold new_record. rewrite decide_False by key_differs.
  rewrite Husr, Hu. unfold parse_field.
  rewrite !decide_False by key_differs.
  rewrite decide_True by reflexivity. reflexivity.
Qed.
End field_lines.

Lemma readUDM_line_bad st bad :
  bad_dn bad →
  readUDM_line st bad =
  Ok {| udm := udm st; usr := None;
        stderr := stderr st ++ [dn_warning (strip CRLF bad)] |}.
Proof.
  intros [Hdn Hno]. unfold readUDM_line, new_record.
  rewrite decide_True by done. by rewrite Hno.
Qed.

Lemma readUDM_line_inactive st ln :
  usr st = None → plain_field ln → readUDM_line st ln = Ok st.
Proof.
  intros Husr Hpl. unfold readUDM_line, new_record.
  rewrite decide_False by done. by rewrite Husr.
Qed.

Lemma readUDM_loop_inactive st fields :
  usr st = None → Forall plain_field fields → readUDM_loop st fields = Ok st.
Proof.
  intros Husr. induction 1 as [|ln fields Hln _ IH]; [done|].
  simpl. by rewrite readUDM_line_inactive.
Qed.

(** ** normalizeName *)

Lemma replace_notin old new s : old ∉ s → replace old new s = s.
Proof.
  unfold replace. induction s as [|c s IH]; [done|].
  intros [Hc Hs]%not_elem_of_cons. simpl.
  rewrite decide_False by done. simpl. f_equal. by apply IH.
Qed.

Lemma elem_of_replace x old new s :
  x ∈ replace old new s → x ∈ new ∨ (x ∈ s ∧ x ≠ old).
Proof.
  unfold replace. intros (c & Hx & Hc)%list_elem_of_bind.
  destruct (decide (c = old)) as [->|Hne]; [by left|].
  apply list_elem_of_singleton in Hx as ->. by right.
Qed.

Section translit_table.
Variable K : list char.

Lemma translit_fold_id t s :
  (∀ k, k ∈ t.*1 → k ∉ s) → replace_all t s = s.
Proof.
  induction t as [|[old new] t IH]; intros Hk; [done|].
  unfold replace_all. simpl. rewrite replace_notin.
  - apply IH. intros k Hin. apply Hk. by right.
  - apply Hk. by left.
Qed.

Lemma translit_fold_clean t : ∀ s,
  Forall (λ x, x ∉ K) (concat t.*2) →
  (∀ x, x ∈ s → x ∈ K → x ∈ t.*1) →
  ∀ x, x ∈ replace_all t s → x ∉ K.
Proof.
  induction t as [|[old new] t IH]; intros s Hv Hs x Hx.
  - intros HK. specialize (Hs x Hx HK). by apply elem_of_nil in Hs.
  - simpl in Hv. apply Forall_app in Hv as [Hnew Hv].
    apply (IH (replace old new s)); [done| |done].
    intros y [Hy|[Hy Hne]]%elem_of_replace HK.
    + by destruct (proj1 (Forall_forall _ _) Hnew y Hy).
    + specialize (Hs y Hy HK). by apply elem_of_cons in Hs as [?|?].
Qed.
End translit_table.

(** No replacement text contains a character that is replaced. *)
Lemma translit_values_clean :
  Forall (λ x, x ∉ translit_keys) (concat translit.*2).
Proof. apply (bool_decide_unpack _). vm_compute. exact I. Qed.

(** A normalized name holds none of the replaced characters. *)
Lemma normalizeName_clean nm x :
  x ∈ normalizeName nm → x ∉ translit_keys.
Proof.
  unfold normalizeName.
  apply translit_fold_clean; [apply translit_values_clean | done].
Qed.

(** ** udmMail *)

Lemma append_each (m l : list str) : foldl (λ m ml, m ++ [ml]) m l = m ++ l.
Proof.
  revert m. induction l as [|x l IH]; intros m; simpl.
  - by rewrite app_nil_r.
  - by rewrite IH, <- (assoc_L (++)).
Qed.

Lemma udmMail_step_match user r :
  nameMatch (MailUser.name user) (UdmUser.name r)
  || nameMatch (MailUser.name user) (UdmUser.gecos r) = true →
  udmMail_step user r = attach user r.
Proof.
  intros H. unfold udmMail_step, attach. rewrite H. by rewrite append_each.
Qed.

Lemma udmMail_name user recs :
  MailUser.name (udmMail user recs) = MailUser.name user.
Proof.
  revert user. induction recs as [|r recs IH]; intros user; [done|].
  unfold udmMail in *. simpl. rewrite IH. unfold udmMail_step.
  by destruct (_ || _).
Qed.

(** The sibling path: [githubMail] tests membership before it appends, and
    keeps a duplicate-free list so. *)
Lemma githubMail_nodup user email :
  NoDup (MailUser.mls user) → NoDup (MailUser.mls (githubMail user email)).
Proof.
  intros Hnd. unfold githubMail.
  destruct email as [[|c e]|]; try done.
  destruct (decide (c :: e ∈ MailUser.mls user)) as [|Hin]; [done|]. simpl.
  apply NoDup_app. repeat split; [done| |apply NoDup_singleton].
  by intros x Hx ->%list_elem_of_singleton.
Qed.

(** ** The merge *)

(** C1, as the code has it: [udmMail] appends every address of a matching
    record without looking whether it is already in the list. For a person
    with two accounts in the dump that carry the same address, the merged
    list holds the address twice. *)
Theorem udmMail_appends_without_dedup :
  ∃ recs,
    readUDM two_accounts = Ok recs ∧
    MailUser.mls (udmMail (MailUser.init (lit "jdoe") (lit "Jane Doe")) recs) =
      [lit "jane@example.org"; lit "jane@example.org"] ∧
    ¬ NoDup (MailUser.mls
               (udmMail (MailUser.init (lit "jdoe") (lit "Jane Doe")) recs)).
Proof.
  eexists. split; [vm_compute; reflexivity|].
  split; [vm_compute; reflexivity|].
  intros H. vm_compute in H. apply NoDup_cons in H as [H _].
  apply H. by left.
Qed.

(** C2, as stated, fails: the table turns U+00C4 into [Ae], so the roster
    name normalizes to [Ae. Mueller], which is not [AE. Mueller]; the
    record is not matched and nothing is attached. *)
Lemma nameMatch_AE_Mueller_fails :
  normalizeName A_Mueller = lit "Ae. Mueller" ∧
  normalizeName (lit "AE. Mueller") = lit "AE. Mueller" ∧
  nameMatch A_Mueller (lit "AE. Mueller") = false ∧
  udmMail (MailUser.init (lit "amueller") A_Mueller)
    [ {| UdmUser.uid := lit "am"; UdmUser.name := [];
         UdmUser.gecos := lit "AE. Mueller"; UdmUser.mls := [lit "am@x"] |} ]
  = MailUser.init (lit "amueller") A_Mueller.
Proof. repeat split; vm_compute; reflexivity. Qed.

(** C2, amended: for the roster name A-umlaut [. M] u-umlaut [ller] and a
    record whose gecos is [Ae. Mueller], [nameMatch] is true through
    normalization (the names differ as written), and the merge attaches
    the record's id and mails. *)
Theorem nameMatch_Ae_Mueller user r :
  MailUser.name user = A_Mueller →
  UdmUser.gecos r = lit "Ae. Mueller" →
  MailUser.name user ≠ UdmUser.gecos r ∧
  normalizeName (MailUser.name user) = normalizeName (UdmUser.gecos r) ∧
  nameMatch (MailUser.name user) (UdmUser.gecos r) = true ∧
  udmMail user [r] = attach user r.
Proof.
  intros Hn Hg.
  assert (nameMatch (MailUser.name user) (UdmUser.gecos r) = true) as Hm
    by (rewrite Hn, Hg; vm_compute; reflexivity).
  split; [rewrite Hn, Hg; key_differs|].
  split; [rewrite Hn, Hg; vm_compute; reflexivity|].
  split; [exact Hm|].
  unfold udmMail. simpl. apply udmMail_step_match.
  apply orb_true_iff. by right.
Qed.

Lemma nameMatch_Ae_Mueller_witness :
  MailUser.name mueller_user = A_Mueller ∧
  UdmUser.gecos mueller_rec = lit "Ae. Mueller" ∧
  nameMatch (MailUser.name mueller_user) (UdmUser.gecos mueller_rec) = true ∧
  udmMail mueller_user [mueller_rec] = attach mueller_user mueller_rec.
Proof.
  split; [reflexivity|]. split; [reflexivity|].
  apply (nameMatch_Ae_Mueller mueller_user mueller_rec); reflexivity.
Defined.

(** ** Record boundaries *)

(** C3, as stated, fails: [uidre.match] anchors at the start of the text
    after [DN: ], so a line whose [uid=] segment is not the first one
    opens no record; it is warned about like any other unparsable line. *)
Lemma uid_not_first_opens_no_record :
  readUDM_run [lit "DN: cn=jdoe,uid=jdoe,dc=example,dc=org"] =
  Ok {| udm := []; usr := None;
        stderr := [lit "Warning: DN line without uid= match: DN: cn=jdoe,uid=jdoe,dc=example,dc=org"] |}.
Proof. vm_compute. reflexivity. Qed.

(** C3, amended: for every input line of the form [DN: uid=<ID>,<anything>],
    the [uid=] segment directly after [DN: ] and [<ID>] free of commas, the
    parser starts a new record whose id is [<ID>], after whatever came
    before; the record is the current one and nothing is printed. *)
Theorem dn_line_starts_record pre st id rest :
  comma ∉ id →
  readUDM_run pre = Ok st →
  readUDM_run (pre ++ [dn_line id rest]) =
  Ok {| udm := udm st ++ [UdmUser.init id []];
        usr := Some (length (udm st));
        stderr := stderr st |}.
Proof.
  intros Hid Hpre. unfold readUDM_run in *.
  rewrite readUDM_loop_app, Hpre. simpl.
  by rewrite readUDM_line_dn.
Qed.

Lemma dn_line_starts_record_witness :
  (comma ∉ lit "jdoe") ∧
  readUDM_run [] = Ok readUDM_init ∧
  readUDM_run ([] ++ [dn_line (lit "jdoe") (lit "cn=users,dc=example")]) =
  Ok {| udm := [UdmUser.init (lit "jdoe") []]; usr := Some 0; stderr := [] |}.
Proof.
  assert (comma ∉ lit "jdoe") as Hid by not_in_chars.
  split; [exact Hid|]. split; [reflexivity|].
  exact (dn_line_starts_record [] readUDM_init (lit "jdoe")
           (lit "cn=users,dc=example") Hid eq_refl).
Defined.

(** The ids a line yields are those of the lines [DN: uid=<id>,<rest>]. *)
Lemma line_uid_Some ln id :
  line_uid ln = Some id ↔
  ∃ rest, strip CRLF ln = dn_line id rest ∧ comma ∉ id.
Proof.
  unfold line_uid. simpl. split.
  - destruct (decide (take 4 _ = _)) as [Hdn|]; [|done].
    intros (rest & Hs & Hid)%uidre_match_Some. exists rest. split; [|done].
    rewrite <- (take_drop 4 (strip CRLF ln)), Hdn, Hs. reflexivity.
  - intros (rest & -> & Hid).
    change (take 4 (dn_line id rest)) with (lit "DN: ").
    rewrite decide_True by done. apply uidre_match_Some. by eexists.
Qed.

(** C5, as stated, fails: the pattern's group may be empty, so the line
    [DN: uid=,cn=users] yields a record whose id is the empty string. *)
Lemma empty_uid_record :
  readUDM [lit "DN: uid=,cn=users,dc=example"] =
  Ok [ {| UdmUser.uid := []; UdmUser.name := []; UdmUser.gecos := [];
          UdmUser.mls := [] |} ].
Proof. vm_compute. reflexivity. Qed.

(** C5, amended: the ids of the records in the parser's output are, in
    order, the ids the pattern extracts from the input's [DN: ] lines,
    each a comma-free and possibly empty string; a [DN: ] line from which
    no id can be parsed produces no record, only its warning, and parsing
    goes on to the end of the input. *)
Theorem readUDM_ids file :
  ∃ st,
    readUDM_run file = Ok st ∧
    (UdmUser.uid <$> udm st) = omap line_uid file ∧
    stderr st = omap line_warning file ∧
    Forall (λ r, comma ∉ UdmUser.uid r) (udm st).
Proof.
  destruct (readUDM_run_ok file) as (st & E & _ & Hu & He & _).
  exists st. repeat split; try done.
  apply (Forall_fmap UdmUser.uid (λ id, comma ∉ id)).
  rewrite Hu. apply Forall_forall. intros id (ln & _ & Hln)%list_elem_of_omap.
  by apply line_uid_Some in Hln as (rest & _ & Hid).
Qed.

(** C7: the parser is total, on every sequence of lines it returns its
    record list and raises nothing; a [DN: ] line without an extractable
    uid adds no record, prints its warning and leaves no record current,
    so that the field lines after it change nothing, and a valid [DN: ]
    line after those opens a record again. *)
Theorem readUDM_total_and_recovers :
  (∀ file, ∃ recs, readUDM file = Ok recs) ∧
  (∀ pre st bad fields id rest,
     readUDM_run pre = Ok st →
     bad_dn bad →
     Forall plain_field fields →
     comma ∉ id →
     readUDM_run (pre ++ bad :: fields) =
       Ok {| udm := udm st; usr := None;
             stderr := stderr st ++ [dn_warning (strip CRLF bad)] |} ∧
     readUDM_run (pre ++ bad :: fields ++ [dn_line id rest]) =
       Ok {| udm := udm st ++ [UdmUser.init id []];
             usr := Some (length (udm st));
             stderr := stderr st ++ [dn_warning (strip CRLF bad)] |}).
Proof.
  split.
  - intros file. destruct (readUDM_run_ok file) as (st & E & _).
    exists (udm st). unfold readUDM. by rewrite E.
  - intros pre st bad fields id rest Hpre Hbad Hfields Hid.
    unfold readUDM_run in *.
    assert (readUDM_loop st (bad :: fields) =
            Ok {| udm := udm st; usr := None;
                  stderr := stderr st ++ [dn_warning (strip CRLF bad)] |}) as Hrun.
    { simpl. rewrite readUDM_line_bad by done. simpl.
      by apply readUDM_loop_inactive. }
    split.
    + by rewrite readUDM_loop_app, Hpre.
    + rewrite readUDM_loop_app, Hpre.
      change (readUDM_loop st ((bad :: fields) ++ [dn_line id rest]) =
              Ok {| udm := udm st ++ [UdmUser.init id []];
                    usr := Some (length (udm st));
                    stderr := stderr st ++ [dn_warning (strip CRLF bad)] |}).
      rewrite readUDM_loop_app, Hrun. simpl.
      by rewrite readUDM_line_dn.
Qed.

Lemma readUDM_total_and_recovers_witness :
  readUDM_run [lit "DN: uid=a,dc=x"; lit "  e-mail: a@x"] =
    Ok {| udm := [ {| UdmUser.uid := lit "a"; UdmUser.name := [];
                      UdmUser.gecos := []; UdmUser.mls := [lit "a@x"] |} ];
          usr := Some 0; stderr := [] |} ∧
  bad_dn (lit "DN: cn=b,dc=x") ∧
  Forall plain_field [lit "  e-mail: b@x"] ∧
  (comma ∉ lit "c") ∧
  readUDM_run ([lit "DN: uid=a,dc=x"; lit "  e-mail: a@x"]
               ++ lit "DN: cn=b,dc=x" :: [lit "  e-mail: b@x"]
               ++ [dn_line (lit "c") (lit "dc=x")]) =
    Ok {| udm := [ {| UdmUser.uid := lit "a"; UdmUser.name := [];
                      UdmUser.gecos := []; UdmUser.mls := [lit "a@x"] |};
                   UdmUser.init (lit "c") [] ];
          usr := Some 1;
          stderr := [lit "Warning: DN line without uid= match: DN: cn=b,dc=x"] |}.
Proof.
  assert (bad_dn (lit "DN: cn=b,dc=x")) as Hbad by (split; reflexivity).
  assert (Forall plain_field [lit "  e-mail: b@x"]) as Hf
    by (apply Forall_singleton; key_differs).
  assert (comma ∉ lit "c") as Hid by not_in_chars.
  split; [reflexivity|]. split; [exact Hbad|]. split; [exact Hf|].
  split; [exact Hid|].
  exact (proj2 (proj2 readUDM_total_and_recovers
                  [lit "DN: uid=a,dc=x"; lit "  e-mail: a@x"]
                  {| udm := [ {| UdmUser.uid := lit "a"; UdmUser.name := [];
                                 UdmUser.gecos := [];
                                 UdmUser.mls := [lit "a@x"] |} ];
                     usr := Some 0; stderr := [] |}
                  _ _ _ (lit "dc=x") eq_refl Hbad Hf Hid)).
Defined.

(** C8: whatever the input, every record the parser returns has a mail
    list without duplicates. *)
Theorem readUDM_emails_nodup file :
  ∃ recs, readUDM file = Ok recs ∧
          Forall (λ r, NoDup (UdmUser.mls r)) recs.
Proof.
  destruct (readUDM_run_ok file) as (st & E & _ & _ & _ & Hnd).
  exists (udm st). unfold readUDM. rewrite E. by split.
Qed.

(** ** Field lines *)

(** C6: the record with the lines [mailForwardAddress: a@x], [e-mail: b@x],
    [mailForwardAddress: c@x], in the dump's two-space indentation, gets
    the mails [c@x; a@x; b@x]. In general, on a record whose mails have no
    duplicates, a [mailForwardAddress] value goes to the front and its
    earlier occurrence is removed, and an [e-mail] value goes to the end
    unless it is there already. *)
Theorem forward_addresses_first :
  readUDM sample_block =
    Ok [ {| UdmUser.uid := lit "jdoe"; UdmUser.name := []; UdmUser.gecos := [];
            UdmUser.mls := [lit "c@x"; lit "a@x"; lit "b@x"] |} ] ∧
  (∀ st i u (tail v : str),
     usr st = Some i → udm st !! i = Some u → NoDup (UdmUser.mls u) →
     rstrip CRLF tail = space :: v →
     readUDM_line st (lit "  mailForwardAddress:" ++ tail) =
       Ok (store st i
             (UdmUser.set_mls (v :: filter (λ y, y ≠ v) (UdmUser.mls u)) u)) ∧
     readUDM_line st (lit "  e-mail:" ++ tail) =
       Ok (store st i
             (if decide (v ∈ UdmUser.mls u) then u
              else UdmUser.set_mls (UdmUser.mls u ++ [v]) u))).
Proof.
  split; [vm_compute; reflexivity|].
  intros st i u tail v Husr Hu Hnd Ht. split.
  - rewrite (mailForwardAddress_line st i u Husr Hu tail space v Ht).
    case_decide as Hin.
    + rewrite list_remove_filter by done. reflexivity.
    + simpl. by rewrite filter_ne_notin.
  - exact (email_line st i u Husr Hu tail space v Ht).
Qed.

Lemma forward_addresses_first_witness :
  usr active_state = Some 0 ∧
  udm active_state !! 0 = Some active_rec ∧
  NoDup (UdmUser.mls active_rec) ∧
  rstrip CRLF (lit " a@x" ++ [10%N]) = space :: lit "a@x" ∧
  readUDM_line active_state (lit "  mailForwardAddress:" ++ lit " a@x" ++ [10%N]) =
    Ok (store active_state 0
          (UdmUser.set_mls [lit "a@x"; lit "b@x"] active_rec)).
Proof.
  assert (NoDup (UdmUser.mls active_rec)) as Hnd.
  { apply (bool_decide_unpack _). vm_compute. exact I. }
  split; [reflexivity|]. split; [reflexivity|]. split; [exact Hnd|].
  split; [reflexivity|].
  exact (proj1 (proj2 forward_addresses_first active_state 0 active_rec
                  (lit " a@x" ++ [10%N]) (lit "a@x")
                  eq_refl eq_refl Hnd eq_refl)).
Defined.

(** C9: on an active record, the value of a recognized field line is what
    follows the key's colon and one more character, whatever that
    character is; [  e-mail:x@y] is accepted and stores [@y]. *)
Theorem field_value_skips_one_character :
  readUDM [lit "DN: uid=u,dc=x"; lit "  e-mail:x@y"] =
    Ok [ {| UdmUser.uid := lit "u"; UdmUser.name := []; UdmUser.gecos := [];
            UdmUser.mls := [lit "@y"] |} ] ∧
  (∀ st i u (tail : str) (c : char) (v : str),
     usr st = Some i → udm st !! i = Some u →
     rstrip CRLF tail = c :: v →
     readUDM_line st (lit "  displayName:" ++ tail) =
       Ok (store st i (UdmUser.set_name v u)) ∧
     readUDM_line st (lit "  gecos:" ++ tail) =
       Ok (store st i (UdmUser.set_gecos v u)) ∧
     readUDM_line st (lit "  e-mail:" ++ tail) =
       Ok (store st i
             (if decide (v ∈ UdmUser.mls u) then u
              else UdmUser.set_mls (UdmUser.mls u ++ [v]) u)) ∧
     readUDM_line st (lit "  mailForwardAddress:" ++ tail) =
       (m ← (if decide (v ∈ UdmUser.mls u)
             then list_remove v (UdmUser.mls u)
             else Ok (UdmUser.mls u));
        Ok (store st i (UdmUser.set_mls (v :: m) u)))).
Proof.
  split; [vm_compute; reflexivity|].
  intros st i u tail c v Husr Hu Ht. repeat split.
  - by eapply displayName_line.
  - by eapply gecos_line.
  - by eapply email_line.
  - by eapply mailForwardAddress_line.
Qed.

Lemma field_value_skips_one_character_witness :
  usr active_state = Some 0 ∧
  udm active_state !! 0 = Some active_rec ∧
  rstrip CRLF (lit "x@y") = 120%N :: lit "@y" ∧
  readUDM_line active_state (lit "  e-mail:" ++ lit "x@y") =
    Ok (store active_state 0
          (UdmUser.set_mls [lit "b@x"; lit "@y"] active_rec)).
Proof.
  split; [reflexivity|]. split; [reflexivity|]. split; [reflexivity|].
  exact (proj1 (proj2 (proj2 (proj2 field_value_skips_one_character
                  active_state 0 active_rec (lit "x@y") 120%N (lit "@y")
                  eq_refl eq_refl eq_refl)))).
Defined.

(** ** Names *)

(** C4, as stated, fails: only one [Dr.] is removed per call, so a second
    call removes the next one. *)
Lemma normalizeName_not_idempotent :
  normalizeName (lit "Dr. Dr. Meier") = lit "Dr. Meier" ∧
  normalizeName (normalizeName (lit "Dr. Dr. Meier")) = lit "Meier" ∧
  normalizeName (normalizeName (lit "Dr. Dr. Meier")) ≠
  normalizeName (lit "Dr. Dr. Meier").
Proof.
  split; [vm_compute; reflexivity|]. split; [vm_compute; reflexivity|].
  key_differs.
Qed.

(** C4, amended: [normalizeName (normalizeName x)] is [normalizeName x] for
    every [x] whose normalized name does not again begin with [Dr.] and
    neither begins nor ends with a space. *)
Theorem normalizeName_idempotent_when_stable x :
  take 3 (normalizeName x) ≠ lit "Dr." →
  head (normalizeName x) ≠ Some space →
  last (normalizeName x) ≠ Some space →
  normalizeName (normalizeName x) = normalizeName x.
Proof.
  intros Hdr Hh Hl.
  pose proof (normalizeName_clean x) as Hclean.
  set (y := normalizeName x) in *. clearbody y.
  unfold normalizeName. rewrite decide_False by done.
  rewrite strip_id.
  - apply translit_fold_id. intros k Hk Hy. by apply (Hclean k Hy).
  - intros c Hc ->%list_elem_of_singleton. done.
  - intros c Hc ->%list_elem_of_singleton. done.
Qed.

Lemma normalizeName_idempotent_when_stable_witness :
  take 3 (normalizeName A_Mueller) ≠ lit "Dr." ∧
  head (normalizeName A_Mueller) ≠ Some space ∧
  last (normalizeName A_Mueller) ≠ Some space ∧
  normalizeName (normalizeName A_Mueller) = normalizeName A_Mueller.
Proof.
  assert (take 3 (normalizeName A_Mueller) ≠ lit "Dr.") as H1 by key_differs.
  assert (head (normalizeName A_Mueller) ≠ Some space) as H2 by key_differs.
  assert (last (normalizeName A_Mueller) ≠ Some space) as H3 by key_differs.
  split; [exact H1|]. split; [exact H2|]. split; [exact H3|].
  exact (normalizeName_idempotent_when_stable A_Mueller H1 H2 H3).
Defined.

Lemma udmMail_cons user r more :
  udmMail user (r :: more) = udmMail (udmMail_step user r) more.
Proof. reflexivity. Qed.

(** Every record of a parsed dump has a duplicate-free mail list. *)
Lemma readUDM_emails_nodup_all file :
  ∃ recs, readUDM file = Ok recs ∧ Forall nodup_mls recs.
Proof.
  destruct (readUDM_run_ok file) as (st & E & _ & _ & _ & Hnd).
  exists (udm st). unfold readUDM. rewrite E. by split.
Qed.

(** An entry that no record matches is not changed by [udmMail]. *)
Lemma udmMail_no_match_any user udm :
  Forall (λ r, matches (MailUser.name user) r = false) udm →
  udmMail user udm = user.
Proof.
  revert user. induction udm as [|r udm IH]; intros user H; [done|].
  apply Forall_cons in H as [Hr H].
  change (udmMail user (r :: udm)) with (udmMail (udmMail_step user r) udm).
  unfold udmMail_step. unfold matches in Hr. rewrite Hr. by apply IH.
Qed.

(** ** Further properties: names *)

(** [nameMatch] compares normal forms. *)
Lemma nameMatch_true_iff nm1 nm2 :
  nameMatch nm1 nm2 = true ↔ normalizeName nm1 = normalizeName nm2.
Proof.
  unfold nameMatch. destruct (decide (nm1 = nm2)) as [->|_]; [done|].
  by destruct (decide (normalizeName nm1 = normalizeName nm2)).
Qed.

(** X1: [nameMatch] is true exactly when the two names have the same
    normal form; its first test, on the names as written, adds nothing. *)
Theorem nameMatch_iff_normal_forms nm1 nm2 :
  nameMatch nm1 nm2 = true ↔ normalizeName nm1 = normalizeName nm2.
Proof. apply nameMatch_true_iff. Qed.

(** X2: [nameMatch] is an equivalence on names: every name matches
    itself, the answer does not depend on the order of the arguments, and
    two names that match a third match each other. *)
Theorem nameMatch_equivalence :
  (∀ a, nameMatch a a = true) ∧
  (∀ a b, nameMatch a b = nameMatch b a) ∧
  (∀ a b c, nameMatch a b = true → nameMatch b c = true →
            nameMatch a c = true).
Proof.
  split; [|split].
  - intros a. by apply nameMatch_true_iff.
  - intros a b. apply eq_true_iff_eq.
    rewrite !nameMatch_true_iff. by split.
  - intros a b c. rewrite !nameMatch_true_iff. congruence.
Qed.

Lemma nameMatch_equivalence_witness :
  nameMatch A_Mueller (lit "Ae. Mueller") = true ∧
  nameMatch (lit "Ae. Mueller") (lit "Ae.-Mueller") = true ∧
  nameMatch A_Mueller (lit "Ae.-Mueller") = true.
Proof.
  split; [reflexivity|]. split; [reflexivity|].
  exact (proj2 (proj2 nameMatch_equivalence) A_Mueller (lit "Ae. Mueller")
           (lit "Ae.-Mueller") eq_refl eq_refl).
Defined.

Lemma subst_char_notin t c : c ∉ t.*1 → subst_char t c = [c].
Proof.
  induction t as [|[old new] t IH]; [done|].
  intros [Hc Ht]%not_elem_of_cons. simpl.
  rewrite decide_False by done. by apply IH.
Qed.

Lemma bind_subst_char_id t (s : str) :
  Forall (λ c, c ∉ t.*1) s → s ≫= subst_char t = s.
Proof.
  induction 1 as [|c s Hc Hs IH]; [done|].
  rewrite bind_cons, subst_char_notin by done. simpl. by f_equal.
Qed.

(** Applying the lines of a table one after the other is one pass that
    substitutes each character, when no replacement text holds a
    character that a later line replaces. *)
Lemma replace_all_subst t : ∀ s : str,
  Forall (λ c, c ∉ t.*1) (concat t.*2) →
  replace_all t s = s ≫= subst_char t.
Proof.
  induction t as [|[old new] t IH]; intros s Hv.
  - simpl. induction s as [|c s IHs]; [done|].
    rewrite bind_cons. simpl. by f_equal.
  - simpl in Hv. apply Forall_app in Hv as [Hnew Hv].
    assert (Forall (λ c, c ∉ t.*1) (concat t.*2)) as Hv'.
    { eapply Forall_impl; [exact Hv|]. intros c Hc Hin. apply Hc. by right. }
    assert (Forall (λ c, c ∉ t.*1) new) as Hnew'.
    { eapply Forall_impl; [exact Hnew|]. intros c Hc Hin. apply Hc. by right. }
    unfold replace_all in *. simpl. rewrite (IH _ Hv'). unfold replace.
    induction s as [|c s IHs]; [done|].
    rewrite !bind_cons, bind_app, IHs. f_equal.
    repeat case_decide; try done.
    + by apply bind_subst_char_id.
    + rewrite bind_cons. simpl. by rewrite app_nil_r.
Qed.

(** X4: a normalized name holds none of the characters of the table: no
    hyphen, no umlaut, no accented letter. *)
Theorem normalizeName_no_replaced_chars nm :
(hyphen ∉ normalizeName nm) ∧
  Forall (λ c, c ∉ translit_keys) (normalizeName nm).
Proof.
  assert (Forall (λ c, c ∉ translit_keys) (normalizeName nm)) as H.
  { apply Forall_forall. intros c. apply normalizeName_clean. }
  split; [|done]. intros Hin.
  apply (proj1 (Forall_forall _ _) H hyphen Hin).
  apply (bool_decide_unpack _). vm_compute. exact I.
Qed.

Section strip_facts.
Variable chars : list char.

Lemma lstrip_head (s : str) c : head (lstrip chars s) = Some c → c ∉ chars.
Proof.
  induction s as [|a s IH]; simpl; [done|].
  destruct (decide (a ∈ chars)); [exact IH|]. by intros [= <-].
Qed.

Lemma lstrip_suffix (s : str) : lstrip chars s `suffix_of` s.
Proof.
  induction s as [|a s IH]; simpl; [done|].
  destruct (decide (a ∈ chars)); [by apply suffix_cons_r | done].
Qed.

Lemma rstrip_prefix (s : str) : rstrip chars s `prefix_of` s.
Proof.
  unfold rstrip. destruct (lstrip_suffix (reverse s)) as [k Hk].
  exists (reverse k).
  rewrite <- (reverse_involutive s), Hk at 1. by rewrite reverse_app.
Qed.

Lemma rstrip_last (s : str) c : last (rstrip chars s) = Some c → c ∉ chars.
Proof. unfold rstrip. rewrite last_reverse. apply lstrip_head. Qed.

Lemma strip_head (s : str) c : head (strip chars s) = Some c → c ∉ chars.
Proof.
  unfold strip. intros Hc.
  destruct (lstrip chars s) as [|a t] eqn:E; [done|].
  assert (a ∉ chars) as Ha by (apply (lstrip_head s); by rewrite E).
  change (a :: t) with ([] ++ a :: t) in Hc.
  rewrite rstrip_app_notin in Hc by done. by injection Hc as <-.
Qed.

Lemma strip_last (s : str) c : last (strip chars s) = Some c → c ∉ chars.
Proof. apply rstrip_last. Qed.

Lemma strip_length (s : str) : length (strip chars s) ≤ length s.
Proof.
  unfold strip.
  destruct (rstrip_prefix (lstrip chars s)) as [k Hk].
  destruct (lstrip_suffix s) as [j Hj].
  rewrite Hj at 2. rewrite Hk at 2. rewrite !length_app. lia.
Qed.

Lemma strip_Forall (P : char → Prop) (s : str) :
  Forall P s → Forall P (strip chars s).
Proof.
  unfold strip. intros H.
  destruct (rstrip_prefix (lstrip chars s)) as [k Hk].
  destruct (lstrip_suffix s) as [j Hj].
  rewrite Hj, Hk in H. by apply Forall_app in H as [_ [H _]%Forall_app].
Qed.
End strip_facts.

Lemma replace_all_clean (s : str) :
  Forall (λ c, c ∉ translit_keys) s → replace_all translit s = s.
Proof.
  intros H. apply translit_fold_id. intros k Hk Hs.
  by apply (proj1 (Forall_forall _ _) H k Hs).
Qed.

(** X5: the names that [normalizeName] leaves as they are, are exactly
    those that do not begin with [Dr.], neither begin nor end with a
    space, and hold no character of the table. *)
Theorem normalizeName_fixed_points x :
  normalizeName x = x ↔
  take 3 x ≠ lit "Dr." ∧ head x ≠ Some space ∧ last x ≠ Some space ∧
  Forall (λ c, c ∉ translit_keys) x.
Proof.
  split.
  - intros Hfix.
    assert (Forall (λ c, c ∉ translit_keys) x) as Hclean.
    { rewrite <- Hfix. apply Forall_forall. intros c.
      apply normalizeName_clean. }
    unfold normalizeName in Hfix.
    set (y := if decide (take 3 x = lit "Dr.") then drop 3 x else x) in Hfix.
    assert (Forall (λ c, c ∉ translit_keys) y) as Hy.
    { unfold y. destruct (decide _); [by apply Forall_drop | done]. }
    rewrite replace_all_clean in Hfix by (by apply strip_Forall).
    split; [|split; [|split; [|exact Hclean]]].
    + intros Hdr. unfold y in Hfix. rewrite decide_True in Hfix by done.
      pose proof (strip_length [space] (drop 3 x)) as Hlen.
      rewrite Hfix, length_drop in Hlen.
      apply (f_equal length) in Hdr. rewrite length_take in Hdr.
      change (length (lit "Dr.")) with 3 in Hdr. lia.
    + rewrite <- Hfix. intros Hh. apply strip_head in Hh.
      apply Hh. by left.
    + rewrite <- Hfix. intros Hl. apply strip_last in Hl.
      apply Hl. by left.
  - intros (Hdr & Hh & Hl & Hclean). unfold normalizeName.
    rewrite decide_False by done. rewrite strip_id.
    + by apply replace_all_clean.
    + intros c Hc ->%list_elem_of_singleton. done.
    + intros c Hc ->%list_elem_of_singleton. done.
Qed.

Lemma normalizeName_fixed_points_witness :
  normalizeName (lit "Jane Doe") = lit "Jane Doe".
Proof.
  apply (proj2 (normalizeName_fixed_points (lit "Jane Doe"))).
  split; [key_differs|]. split; [key_differs|]. split; [key_differs|].
  apply (bool_decide_unpack _). vm_compute. exact I.
Defined.

(** X6: the title [Dr. ] in front of a name is ignored: the name with the
    title has the normal form of the name without it, and the two match,
    as long as the name does not itself begin with [Dr.]. *)
Theorem title_is_ignored y :
  take 3 y ≠ lit "Dr." →
  normalizeName (lit "Dr. " ++ y) = normalizeName y ∧
  nameMatch (lit "Dr. " ++ y) y = true.
Proof.
  intros Hdr.
  assert (normalizeName (lit "Dr. " ++ y) = normalizeName y) as H.
  { unfold normalizeName.
    change (take 3 (lit "Dr. " ++ y)) with (lit "Dr.").
    rewrite decide_True by done. rewrite decide_False by done.
    change (drop 3 (lit "Dr. " ++ y)) with (space :: y).
    unfold strip.
    change (lstrip [space] (space :: y))
      with (if decide (space ∈ [space]) then lstrip [space] y else space :: y).
    rewrite decide_True by (by left). done. }
  split; [exact H|]. by apply nameMatch_true_iff.
Qed.

Lemma title_is_ignored_witness :
  take 3 A_Mueller ≠ lit "Dr." ∧
  normalizeName (lit "Dr. " ++ A_Mueller) = lit "Ae. Mueller" ∧
  nameMatch (lit "Dr. " ++ A_Mueller) A_Mueller = true.
Proof.
  assert (take 3 A_Mueller ≠ lit "Dr.") as H by key_differs.
  split; [exact H|]. destruct (title_is_ignored A_Mueller H) as [H1 H2].
  split; [rewrite H1; reflexivity | exact H2].
Defined.

(** ** Further properties: the merge *)

Lemma udmMail_step_matches user r :
  udmMail_step user r =
  if matches (MailUser.name user) r then attach user r else user.
Proof.
  unfold udmMail_step, matches, attach.
  destruct (_ || _); [|done]. by rewrite append_each.
Qed.

Lemma last_cons_default {A} (d x : A) (l : list A) :
  default d (last (x :: l)) = default x (last l).
Proof.
  destruct l as [|y l]; [done|]. rewrite last_cons_cons.
  destruct (last (y :: l)) eqn:E; [done | by apply last_None in E].
Qed.

(** The fields of the entry after [udmMail], from the matching records. *)
Lemma udmMail_effect udm : ∀ user,
  let hits := filter (λ r, matches (MailUser.name user) r = true) udm in
  MailUser.ghnm (udmMail user udm) = MailUser.ghnm user ∧
  MailUser.name (udmMail user udm) = MailUser.name user ∧
  MailUser.mls (udmMail user udm) =
    MailUser.mls user ++ concat (UdmUser.mls <$> hits) ∧
  MailUser.ucsnm (udmMail user udm) =
    default (MailUser.ucsnm user) (UdmUser.uid <$> last hits).
Proof.
  induction udm as [|r udm IH]; intros user; cbv zeta.
  - simpl. by rewrite app_nil_r.
  - rewrite udmMail_cons, udmMail_step_matches.
    destruct (matches (MailUser.name user) r) eqn:Hm.
    + rewrite filter_cons_True by done.
      destruct (IH (attach user r)) as (Hg & Hn & Hmls & Hid).
      simpl in *. rewrite Hg, Hn, Hmls, Hid.
      repeat split; [by rewrite <- (assoc_L (++))|].
      rewrite <- !fmap_last. simpl.
      by rewrite (last_cons_default (MailUser.ucsnm user)).
    + rewrite filter_cons_False by (by rewrite Hm). apply IH.
Qed.

(** X7: what [udmMail] leaves behind. The login and the name stay; the
    mails are the ones the entry had, followed by the mails of every
    matching record, record after record in the order of the dump; the
    directory id is the uid of the last matching record, and stays as it
    was when no record matches. *)
Theorem udmMail_result udm : ∀ user,
  let hits := filter (λ r, matches (MailUser.name user) r = true) udm in
  MailUser.ghnm (udmMail user udm) = MailUser.ghnm user ∧
  MailUser.name (udmMail user udm) = MailUser.name user ∧
  MailUser.mls (udmMail user udm) =
    MailUser.mls user ++ concat (UdmUser.mls <$> hits) ∧
  MailUser.ucsnm (udmMail user udm) =
    default (MailUser.ucsnm user) (UdmUser.uid <$> last hits).
Proof. apply udmMail_effect. Qed.

(** X8: an entry that no record of the dump matches comes back from
    [udmMail] unchanged, with its directory id and its mails as before. *)
Theorem udmMail_no_match user udm :
  Forall (λ r, matches (MailUser.name user) r = false) udm →
  udmMail user udm = user.
Proof.
  revert user. induction udm as [|r udm IH]; intros user H; [done|].
  apply Forall_cons in H as [Hr H].
  rewrite udmMail_cons, udmMail_step_matches, Hr. by apply IH.
Qed.

Lemma udmMail_no_match_witness :
  Forall (λ r, matches (MailUser.name mueller_user) r = false) [active_rec] ∧
  udmMail mueller_user [active_rec] = mueller_user.
Proof.
  assert (Forall (λ r, matches (MailUser.name mueller_user) r = false)
            [active_rec]) as H by (apply Forall_singleton; reflexivity).
  split; [exact H | exact (udmMail_no_match mueller_user [active_rec] H)].
Defined.

(** X9: for a roster entry without mails that matches exactly one record
    of a parsed dump, the merged mails are that record's mails and hold no
    duplicate. *)
Theorem udmMail_single_match file recs user r :
  readUDM file = Ok recs →
  MailUser.mls user = [] →
  filter (λ r, matches (MailUser.name user) r = true) recs = [r] →
  MailUser.ucsnm (udmMail user recs) = UdmUser.uid r ∧
  MailUser.mls (udmMail user recs) = UdmUser.mls r ∧
  NoDup (MailUser.mls (udmMail user recs)).
Proof.
  intros Hfile Hmls Hhit.
  destruct (udmMail_effect recs user) as (_ & _ & Hm & Hid).
  rewrite Hhit in Hm, Hid. simpl in Hm, Hid.
  rewrite Hmls, app_nil_r in Hm. rewrite Hm. repeat split; [done|].
  destruct (readUDM_emails_nodup_all file) as (recs' & Hfile' & Hnd).
  rewrite Hfile in Hfile'. injection Hfile' as <-.
  apply (proj1 (Forall_forall _ _) Hnd r).
  apply (list_elem_of_filter (λ r, matches (MailUser.name user) r = true)).
  rewrite Hhit. by left.
Qed.

Lemma udmMail_single_match_witness :
  (∃ recs,
     readUDM titled_dump = Ok recs ∧
     filter (λ r, matches (MailUser.name jane_user) r = true) recs = [titled_rec] ∧
     MailUser.mls (udmMail jane_user recs) = [lit "jane@x"]) ∧
  MailUser.mls jane_user = [].
Proof.
  split; [|reflexivity].
  eexists. split; [vm_compute; reflexivity|].
  assert (filter (λ r, matches (MailUser.name jane_user) r = true)
            [ {| UdmUser.uid := lit "jdoe"; UdmUser.name := [];
                 UdmUser.gecos := [];
                 UdmUser.mls := [lit "c@x"; lit "a@x"; lit "b@x"] |};
              titled_rec ] = [titled_rec]) as Hhit by (vm_compute; reflexivity).
  split; [exact Hhit|].
  exact (proj1 (proj2 (udmMail_single_match titled_dump _ jane_user titled_rec
                         eq_refl eq_refl Hhit))).
Defined.

(** X10: [githubMail] with the same answer a second time changes nothing
    more. *)
Theorem githubMail_idempotent user email :
  githubMail (githubMail user email) email = githubMail user email.
Proof.
  unfold githubMail. destruct email as [[|c e]|]; try done.
  destruct (decide (c :: e ∈ MailUser.mls user)) as [Hin|Hin].
  - by rewrite decide_True.
  - simpl. rewrite decide_True; [done|].
    apply elem_of_app. right. by left.
Qed.

(** X11: [githubMail] touches nothing but the mails, keeps the mails the
    entry had, in place, adds at most the answered address at the end,
    keeps a duplicate-free list duplicate-free, and afterwards the list
    holds the address whenever github answered a non-empty one. *)
Theorem githubMail_keeps_mails user email :
  MailUser.ghnm (githubMail user email) = MailUser.ghnm user ∧
  MailUser.name (githubMail user email) = MailUser.name user ∧
  MailUser.ucsnm (githubMail user email) = MailUser.ucsnm user ∧
  (MailUser.mls (githubMail user email) = MailUser.mls user ∨
   ∃ e, email = Some e ∧
        MailUser.mls (githubMail user email) = MailUser.mls user ++ [e]) ∧
  (NoDup (MailUser.mls user) → NoDup (MailUser.mls (githubMail user email))) ∧
  (∀ e, email = Some e → e ≠ [] → e ∈ MailUser.mls (githubMail user email)).
Proof.
  split; [|split; [|split; [|split; [|split]]]].
  - unfold githubMail. destruct email as [[|c e]|]; try done.
    by destruct (decide _).
  - unfold githubMail. destruct email as [[|c e]|]; try done.
    by destruct (decide _).
  - unfold githubMail. destruct email as [[|c e]|]; try done.
    by destruct (decide _).
  - unfold githubMail. destruct email as [[|c e]|]; try by left.
    destruct (decide _); [by left|]. right. by eexists.
  - apply githubMail_nodup.
  - intros e -> He. unfold githubMail. destruct e as [|c e]; [done|].
    destruct (decide (c :: e ∈ MailUser.mls user)) as [Hin|Hin]; [done|].
    simpl. apply elem_of_app. right. by left.
Qed.

Lemma githubMail_keeps_mails_witness :
  NoDup (MailUser.mls (attach jane_user titled_rec)) ∧
  lit "jane@x" ≠ [] ∧
  NoDup (MailUser.mls (githubMail (attach jane_user titled_rec)
                         (Some (lit "jane@x")))) ∧
  lit "jane@x" ∈ MailUser.mls (githubMail (attach jane_user titled_rec)
                                 (Some (lit "jane@x"))).
Proof.
  assert (NoDup (MailUser.mls (attach jane_user titled_rec))) as Hnd.
  { apply (bool_decide_unpack _). vm_compute. exact I. }
  assert (lit "jane@x" ≠ []) as Hne by key_differs.
  pose proof (githubMail_keeps_mails (attach jane_user titled_rec)
                (Some (lit "jane@x"))) as (_ & _ & _ & _ & H1 & H2).
  split; [exact Hnd|]. split; [exact Hne|].
  split; [exact (H1 Hnd) | exact (H2 _ eq_refl Hne)].
Defined.

(** ** Further properties: the parser *)

(** The loop does on [base ++ udm] what it does on [udm], the references
    shifted by the length of [base]. *)
Lemma readUDM_line_shift base e sa sb ln :
  udm sa = base ++ udm sb → stderr sa = e ++ stderr sb → wf sb →
  (usr sa = (λ i, length base + i) <$> usr sb ∨
   take 4 (strip CRLF ln) = lit "DN: ") →
  ∃ sa' sb',
    readUDM_line sa ln = Ok sa' ∧ readUDM_line sb ln = Ok sb' ∧
    udm sa' = base ++ udm sb' ∧ stderr sa' = e ++ stderr sb' ∧ wf sb' ∧
    usr sa' = (λ i, length base + i) <$> usr sb'.
Proof.
  intros Hudm Herr Hwf Hcase. unfold readUDM_line.
  pose proof (new_record_wf (strip CRLF ln) sb Hwf) as Hwf1.
  assert (udm (new_record (strip CRLF ln) sa) =
            base ++ udm (new_record (strip CRLF ln) sb) ∧
          stderr (new_record (strip CRLF ln) sa) =
            e ++ stderr (new_record (strip CRLF ln) sb) ∧
          usr (new_record (strip CRLF ln) sa) =
            (λ i, length base + i) <$> usr (new_record (strip CRLF ln) sb))
    as (Hu1 & He1 & Hi1).
  { unfold new_record.
    destruct (decide (take 4 (strip CRLF ln) = _)) as [Hdn|Hdn].
    - destruct (uidre_match _); simpl.
      + rewrite Hudm, length_app, <- (assoc_L (++)). done.
      + rewrite Herr, <- (assoc_L (++)). done.
    - destruct Hcase as [Hi|?]; done. }
  destruct (new_record (strip CRLF ln) sa) as [ua ia ea].
  destruct (new_record (strip CRLF ln) sb) as [ub ib eb].
  simpl in *. subst ua ea ia.
  destruct ib as [i|]; simpl; [|by eexists _, _].
  destruct (Hwf1 i eq_refl) as [u Hu]. simpl in Hu.
  rewrite lookup_app_r by lia.
  replace (length base + i - length base) with i by lia. rewrite Hu.
  destruct (parse_field_ok (strip CRLF ln) u) as (u' & -> & _).
  eexists _, _. split; [reflexivity|]. split; [reflexivity|].
  unfold store, wf; simpl. rewrite insert_app_r.
  repeat split; try done.
  intros j [= <-]. apply lookup_lt_is_Some. rewrite length_insert.
  by eapply lookup_lt_Some.
Qed.

Lemma readUDM_loop_shift lines : ∀ base e sa sb,
  udm sa = base ++ udm sb → stderr sa = e ++ stderr sb → wf sb →
  (usr sa = (λ i, length base + i) <$> usr sb ∨ block_end lines) →
  ∃ sa' sb',
    readUDM_loop sa lines = Ok sa' ∧ readUDM_loop sb lines = Ok sb' ∧
    udm sa' = base ++ udm sb' ∧ stderr sa' = e ++ stderr sb'.
Proof.
  induction lines as [|ln lines IH]; intros base e sa sb Hu He Hwf Hcase.
  - by exists sa, sb.
  - destruct (readUDM_line_shift base e sa sb ln Hu He Hwf)
      as (sa1 & sb1 & Ea & Eb & Hu1 & He1 & Hwf1 & Hi1).
    { destruct Hcase as [?|Hend]; [by left | right; by apply Hend]. }
    destruct (IH base e sa1 sb1 Hu1 He1 Hwf1 (or_introl Hi1))
      as (sa' & sb' & Ea' & Eb' & Hu' & He').
    exists sa', sb'. simpl. rewrite Ea, Eb. simpl. by rewrite Ea', Eb'.
Qed.

(** The run over a file cut in front of a block is the two runs, one after the other. *)
Lemma readUDM_run_blocks a b :
  block_end b →
  ∃ sa sb s,
    readUDM_run a = Ok sa ∧ readUDM_run b = Ok sb ∧
    readUDM_run (a ++ b) = Ok s ∧
    udm s = udm sa ++ udm sb ∧ stderr s = stderr sa ++ stderr sb.
Proof.
  intros Hend.
  destruct (readUDM_run_ok a) as (sa & Ea & _).
  destruct (readUDM_loop_shift b (udm sa) (stderr sa) sa readUDM_init)
    as (s & sb & Es & Eb & Hu & He);
    [by rewrite app_nil_r | by rewrite app_nil_r | apply wf_init | by right |].
  exists sa, sb, s. unfold readUDM_run in *.
  rewrite readUDM_loop_app, Ea. simpl. by rewrite Es, Eb.
Qed.

(** X12: the parser works block by block. When the second part of a file
    is empty or begins with a [DN: ] line, the records of the whole file
    are the records of the first part followed by the records of the
    second part, and so are the warnings. *)
Theorem readUDM_app a b :
  block_end b →
  ∃ sa sb s,
    readUDM_run a = Ok sa ∧ readUDM_run b = Ok sb ∧
    readUDM_run (a ++ b) = Ok s ∧
    udm s = udm sa ++ udm sb ∧ stderr s = stderr sa ++ stderr sb.
Proof. apply readUDM_run_blocks. Qed.

Lemma readUDM_app_witness :
  block_end (drop 4 titled_dump) ∧
  ∃ sa sb s,
    readUDM_run sample_block = Ok sa ∧
    readUDM_run (drop 4 titled_dump) = Ok sb ∧
    readUDM_run (sample_block ++ drop 4 titled_dump) = Ok s ∧
    udm s = udm sa ++ udm sb ∧ stderr s = stderr sa ++ stderr sb.
Proof.
  assert (block_end (drop 4 titled_dump)) as H
    by (intros b [= <-]; reflexivity).
  split; [exact H | exact (readUDM_app sample_block (drop 4 titled_dump) H)].
Defined.

(** X13: lines before the first [DN: ] line belong to no record: the
    parser returns the same records and prints the same warnings as
    without them. *)
Theorem readUDM_skips_leading_lines junk file :
  Forall plain_field junk →
  readUDM_run (junk ++ file) = readUDM_run file.
Proof.
  intros H. unfold readUDM_run.
  by rewrite readUDM_loop_app, readUDM_loop_inactive.
Qed.

Lemma readUDM_skips_leading_lines_witness :
  Forall plain_field [lit "# users"; lit "  e-mail: lost@x"] ∧
  readUDM_run ([lit "# users"; lit "  e-mail: lost@x"] ++ sample_block) =
  readUDM_run sample_block.
Proof.
  assert (Forall plain_field [lit "# users"; lit "  e-mail: lost@x"]) as H.
  { repeat (apply Forall_cons; split; [key_differs|]). apply Forall_nil_2. }
  split; [exact H | exact (readUDM_skips_leading_lines _ sample_block H)].
Defined.

Lemma parse_field_classify ln u :
  parse_field ln u =
  match classify ln with
  | DisplayName v => Ok (UdmUser.set_name v u)
  | Forward v =>
      m ← (if decide (v ∈ UdmUser.mls u) then list_remove v (UdmUser.mls u)
           else Ok (UdmUser.mls u));
      Ok (UdmUser.set_mls (v :: m) u)
  | Email v =>
      if decide (v ∉ UdmUser.mls u)
      then Ok (UdmUser.set_mls (UdmUser.mls u ++ [v]) u) else Ok u
  | Gecos v => Ok (UdmUser.set_gecos v u)
  | Other => Ok u
  end.
Proof. unfold parse_field, classify. by repeat case_decide. Qed.

(** What each kind of line does to the record. *)
Lemma parse_field_effect ln u :
  ∃ u', parse_field ln u = Ok u' ∧
    UdmUser.uid u' = UdmUser.uid u ∧
    UdmUser.name u' =
      match classify ln with DisplayName v => v | _ => UdmUser.name u end ∧
    UdmUser.gecos u' =
      match classify ln with Gecos v => v | _ => UdmUser.gecos u end ∧
    (∀ w, w ∈ UdmUser.mls u' ↔
          w ∈ UdmUser.mls u ∨
          match classify ln with
          | Forward v | Email v => w = v
          | _ => False
          end) ∧
    match classify ln with
    | Forward v => head (UdmUser.mls u') = Some v
    | _ => UdmUser.mls u ≠ [] → head (UdmUser.mls u') = head (UdmUser.mls u)
    end.
Proof.
  rewrite parse_field_classify. destruct (classify ln) as [v|v|v|v|].
  - eexists. repeat split; try done; tauto.
  - destruct (decide (v ∈ UdmUser.mls u)) as [Hin|Hin].
    + destruct (list_remove_elem _ _ Hin) as (m & -> & Hm).
      eexists. repeat split; simpl; try done.
      * intros Hw. left. rewrite Hm. done.
      * intros [Hw| ->]; [|by left]. by rewrite Hm in Hw.
    + eexists. repeat split; simpl; try done.
      * intros [->|Hw]%elem_of_cons; [by right | by left].
      * intros [Hw| ->]; [by right | by left].
  - destruct (decide (v ∉ UdmUser.mls u)) as [Hin|Hin].
    + eexists. repeat split; simpl; try done.
      * intros [Hw| ->%list_elem_of_singleton]%elem_of_app;
          [by left | by right].
      * intros [Hw| ->]; apply elem_of_app; [by left | right; by left].
      * by destruct (UdmUser.mls u).
    + apply dec_stable in Hin.
      eexists. repeat split; try done; [by left | by intros [?| ->]].
  - eexists. repeat split; try done; tauto.
  - eexists. repeat split; try done; tauto.
Qed.

Lemma parse_fields_app f1 f2 u :
  parse_fields (f1 ++ f2) u = u' ← parse_fields f1 u; parse_fields f2 u'.
Proof.
  revert u. induction f1 as [|ln f1 IH]; intros u; [done|].
  simpl. destruct (parse_field (strip CRLF ln) u); simpl; [apply IH | done].
Qed.

(** The record of a block, from its field lines: the last [displayName]
    and [gecos] values, and as mails the values of the mail lines. *)
Lemma parse_fields_effect fields : ∀ u,
  ∃ r, parse_fields fields u = Ok r ∧
    UdmUser.uid r = UdmUser.uid u ∧
    UdmUser.name r =
      default (UdmUser.name u) (last (omap displayName_of fields)) ∧
    UdmUser.gecos r =
      default (UdmUser.gecos u) (last (omap gecos_of fields)) ∧
    (∀ w, w ∈ UdmUser.mls r ↔
          w ∈ UdmUser.mls u ∨ w ∈ omap mail_of fields) ∧
    (Forall (λ ln, forward_of ln = None) fields → UdmUser.mls u ≠ [] →
     head (UdmUser.mls r) = head (UdmUser.mls u)).
Proof.
  induction fields as [|ln fields IH]; intros u.
  - exists u. repeat split; try done; [by left|].
    intros [?|Hw]; [done | by apply elem_of_nil in Hw].
  - destruct (parse_field_effect (strip CRLF ln) u)
      as (u1 & E1 & Hid1 & Hn1 & Hg1 & Hm1 & Hh1).
    destruct (IH u1) as (r & Er & Hid & Hn & Hg & Hm & Hh).
    exists r. simpl parse_fields. rewrite E1. simpl.
    split; [done|]. split; [congruence|].
    unfold displayName_of, gecos_of, mail_of, forward_of, field_of in *.
    split; [|split; [|split]].
    + rewrite Hn, Hn1. simpl.
      destruct (classify (strip CRLF ln)); try done.
      by rewrite last_cons_default.
    + rewrite Hg, Hg1. simpl.
      destruct (classify (strip CRLF ln)); try done.
      by rewrite last_cons_default.
    + intros w. rewrite Hm, Hm1. simpl.
      destruct (classify (strip CRLF ln)); rewrite ?elem_of_cons; tauto.
    + intros [Hf Hfs]%Forall_cons Hne.
      destruct (classify (strip CRLF ln)) eqn:Ec; try done;
        specialize (Hh1 Hne); rewrite <- Hh1; apply Hh; try done;
        intros Hnil; rewrite Hnil in Hh1; by destruct (UdmUser.mls u).
Qed.

Lemma readUDM_loop_parse_fields fields : ∀ st i u,
  usr st = Some i → udm st !! i = Some u →
  Forall plain_field fields →
  ∃ r, parse_fields fields u = Ok r ∧
       readUDM_loop st fields = Ok (store st i r).
Proof.
  induction fields as [|ln fields IH]; intros st i u Husr Hu Hpl.
  - exists u. split; [done|]. simpl. unfold store.
    rewrite list_insert_id by done. by destruct st.
  - apply Forall_cons in Hpl as [Hln Hpl]. simpl.
    unfold readUDM_line, new_record. rewrite decide_False by done.
    rewrite Husr, Hu.
    destruct (parse_field_ok (strip CRLF ln) u) as (u1 & -> & _). simpl.
    destruct (IH (store st i u1) i u1) as (r & -> & ->); [done| |done|].
    { simpl. apply list_lookup_insert_eq. by eapply lookup_lt_Some. }
    exists r. split; [done|]. unfold store. simpl.
    by rewrite list_insert_insert_eq.
Qed.

(** A block in its file: the record it yields is the one its own field
    lines build, whatever stands before the block and after it. *)
Lemma readUDM_block_in_context pre id rest fields post :
  comma ∉ id → Forall plain_field fields → block_end post →
  ∃ recs r more,
    readUDM pre = Ok recs ∧
    parse_fields fields (UdmUser.init id []) = Ok r ∧
    readUDM (pre ++ dn_line id rest :: fields ++ post) =
      Ok (recs ++ r :: more).
Proof.
  intros Hid Hpl Hend.
  assert (block_end (dn_line id rest :: fields ++ post)) as Hend'.
  { intros b [= <-]. by rewrite strip_dn_line. }
  destruct (readUDM_run_blocks pre _ Hend') as (sa & sb & s & Ea & Eb & Es & Hu & _).
  destruct (readUDM_run_blocks (dn_line id rest :: fields) post Hend)
    as (sa2 & sb2 & s2 & Ea2 & _ & Es2 & Hu2 & _).
  change ((dn_line id rest :: fields) ++ post)
    with (dn_line id rest :: fields ++ post) in Es2.
  rewrite Eb in Es2. injection Es2 as <-.
  unfold readUDM_run in Ea2. simpl in Ea2.
  rewrite readUDM_line_dn in Ea2 by done. simpl in Ea2.
  destruct (readUDM_loop_parse_fields fields
              {| udm := [UdmUser.init id []]; usr := Some 0; stderr := [] |}
              0 (UdmUser.init id [])) as (r & Er & Eloop); [done..|].
  rewrite Eloop in Ea2. injection Ea2 as <-. simpl in Hu2.
  exists (udm sa), r, (udm sb2). unfold readUDM.
  rewrite Ea, Es. simpl. by rewrite Hu, Hu2.
Qed.

(** X14: the record's first mail is the value of the last
    [mailForwardAddress] line of its block, whatever [e-mail] lines and
    earlier forward lines the block has. *)
Theorem last_forward_address_is_first pre id rest f1 fwd v f2 post :
  comma ∉ id →
  Forall plain_field (f1 ++ fwd :: f2) →
  forward_of fwd = Some v →
  Forall (λ ln, forward_of ln = None) f2 →
  block_end post →
  ∃ recs r more,
    readUDM pre = Ok recs ∧
    readUDM (pre ++ dn_line id rest :: (f1 ++ fwd :: f2) ++ post) =
      Ok (recs ++ r :: more) ∧
    UdmUser.uid r = id ∧
    head (UdmUser.mls r) = Some v.
Proof.
  intros Hid Hpl Hfwd Hf2 Hend.
  destruct (readUDM_block_in_context pre id rest _ post Hid Hpl Hend)
    as (recs & r & more & Hpre & Hr & Hfile).
  exists recs, r, more. split; [done|]. split; [done|].
  rewrite parse_fields_app in Hr.
  destruct (parse_fields_effect f1 (UdmUser.init id []))
    as (u1 & E1 & Hid1 & _). rewrite E1 in Hr. simpl in Hr.
  destruct (parse_field_effect (strip CRLF fwd) u1)
    as (u2 & E2 & Hid2 & _ & _ & _ & Hh2). rewrite E2 in Hr. simpl in Hr.
  destruct (parse_fields_effect f2 u2) as (r' & E3 & Hid3 & _ & _ & _ & Hh3).
  rewrite E3 in Hr. injection Hr as <-.
  split; [by rewrite Hid3, Hid2, Hid1|].
  unfold forward_of, field_of in Hfwd.
  destruct (classify (strip CRLF fwd)); try done. injection Hfwd as ->.
  rewrite Hh3; [done | done |]. intros Hnil. by rewrite Hnil in Hh2.
Qed.

Lemma last_forward_address_is_first_witness :
  (comma ∉ lit "jdoe") ∧
  Forall plain_field ([lit "  mailForwardAddress: a@x"]
                      ++ lit "  mailForwardAddress: c@x" :: [lit "  e-mail: b@x"]) ∧
  forward_of (lit "  mailForwardAddress: c@x") = Some (lit "c@x") ∧
  Forall (λ ln, forward_of ln = None) [lit "  e-mail: b@x"] ∧
  block_end [] ∧
  ∃ recs r more,
    readUDM [] = Ok recs ∧
    readUDM ([] ++ dn_line (lit "jdoe") (lit "dc=x")
               :: ([lit "  mailForwardAddress: a@x"]
                   ++ lit "  mailForwardAddress: c@x" :: [lit "  e-mail: b@x"])
               ++ []) = Ok (recs ++ r :: more) ∧
    UdmUser.uid r = lit "jdoe" ∧
    head (UdmUser.mls r) = Some (lit "c@x").
Proof.
  assert (comma ∉ lit "jdoe") as Hid by not_in_chars.
  assert (Forall plain_field
            ([lit "  mailForwardAddress: a@x"]
             ++ lit "  mailForwardAddress: c@x" :: [lit "  e-mail: b@x"])) as Hpl.
  { repeat (apply Forall_cons; split; [key_differs|]). apply Forall_nil_2. }
  assert (Forall (λ ln, forward_of ln = None) [lit "  e-mail: b@x"]) as Hf2
    by (apply Forall_singleton; reflexivity).
  assert (block_end []) as Hend by (intros b; discriminate).
  split; [exact Hid|]. split; [exact Hpl|]. split; [reflexivity|].
  split; [exact Hf2|]. split; [exact Hend|].
  exact (last_forward_address_is_first [] (lit "jdoe") (lit "dc=x")
           [lit "  mailForwardAddress: a@x"] (lit "  mailForwardAddress: c@x")
           (lit "c@x") [lit "  e-mail: b@x"] [] Hid Hpl eq_refl Hf2 Hend).
Defined.

(** X15: the mails of a record are the values of the [mailForwardAddress]
    and [e-mail] lines of its block, each of them and nothing else, every
    value once. *)
Theorem record_mails_are_block_mails pre id rest fields post :
  comma ∉ id →
  Forall plain_field fields →
  block_end post →
  ∃ recs r more,
    readUDM pre = Ok recs ∧
    readUDM (pre ++ dn_line id rest :: fields ++ post) =
      Ok (recs ++ r :: more) ∧
    UdmUser.uid r = id ∧
    (∀ w, w ∈ UdmUser.mls r ↔ w ∈ omap mail_of fields) ∧
    NoDup (UdmUser.mls r).
Proof.
  intros Hid Hpl Hend.
  destruct (readUDM_block_in_context pre id rest _ post Hid Hpl Hend)
    as (recs & r & more & Hpre & Hr & Hfile).
  exists recs, r, more. split; [done|]. split; [done|].
  destruct (parse_fields_effect fields (UdmUser.init id []))
    as (r' & E & Hid' & _ & _ & Hm & _).
  rewrite E in Hr. injection Hr as <-.
  split; [done|]. split.
  - intros w. rewrite Hm. simpl. split; [|by right].
    intros [Hw|?]; [by apply elem_of_nil in Hw | done].
  - destruct (readUDM_emails_nodup_all
                (pre ++ dn_line id rest :: fields ++ post))
      as (recs' & Hfile' & Hnd).
    rewrite Hfile in Hfile'. injection Hfile' as <-.
    apply (proj1 (Forall_forall _ _) Hnd r').
    apply elem_of_app. right. by left.
Qed.

(** X16: the name of a record is the value of the last [displayName]
    line of its block and its gecos the value of the last [gecos] line,
    each the empty string when the block has no such line; a
    [displayName] line does not set the gecos. *)
Theorem record_names_are_last_lines pre id rest fields post :
  comma ∉ id →
  Forall plain_field fields →
  block_end post →
  ∃ recs r more,
    readUDM pre = Ok recs ∧
    readUDM (pre ++ dn_line id rest :: fields ++ post) =
      Ok (recs ++ r :: more) ∧
    UdmUser.uid r = id ∧
    UdmUser.name r = default [] (last (omap displayName_of fields)) ∧
    UdmUser.gecos r = default [] (last (omap gecos_of fields)).
Proof.
  intros Hid Hpl Hend.
  destruct (readUDM_block_in_context pre id rest _ post Hid Hpl Hend)
    as (recs & r & more & Hpre & Hr & Hfile).
  exists recs, r, more. split; [done|]. split; [done|].
  destruct (parse_fields_effect fields (UdmUser.init id []))
    as (r' & E & Hid' & Hn & Hg & _).
  rewrite E in Hr. by injection Hr as <-.
Qed.

Lemma record_mails_are_block_mails_witness :
  (comma ∉ lit "jdoe") ∧
  Forall plain_field (drop 1 sample_block) ∧
  block_end (drop 4 titled_dump) ∧
  ∃ recs r more,
    readUDM [] = Ok recs ∧
    readUDM ([] ++ dn_line (lit "jdoe") (lit "cn=users,dc=example,dc=org")
               :: drop 1 sample_block ++ drop 4 titled_dump) =
      Ok (recs ++ r :: more) ∧
    UdmUser.uid r = lit "jdoe" ∧
    (∀ w, w ∈ UdmUser.mls r ↔ w ∈ omap mail_of (drop 1 sample_block)) ∧
    NoDup (UdmUser.mls r).
Proof.
  assert (comma ∉ lit "jdoe") as Hid by not_in_chars.
  assert (Forall plain_field (drop 1 sample_block)) as Hpl.
  { repeat (apply Forall_cons; split; [key_differs|]). apply Forall_nil_2. }
  assert (block_end (drop 4 titled_dump)) as Hend
    by (intros b [= <-]; reflexivity).
  split; [exact Hid|]. split; [exact Hpl|]. split; [exact Hend|].
  exact (record_mails_are_block_mails [] (lit "jdoe")
           (lit "cn=users,dc=example,dc=org") (drop 1 sample_block)
           (drop 4 titled_dump) Hid Hpl Hend).
Defined.

Lemma record_names_are_last_lines_witness :
  (comma ∉ lit "jane") ∧
  Forall plain_field (drop 5 titled_dump) ∧
  block_end [] ∧
  ∃ recs r more,
    readUDM sample_block = Ok recs ∧
    readUDM (sample_block
               ++ dn_line (lit "jane") (lit "cn=users,dc=example,dc=org")
               :: drop 5 titled_dump ++ []) = Ok (recs ++ r :: more) ∧
    UdmUser.uid r = lit "jane" ∧
    UdmUser.name r = default [] (last (omap displayName_of (drop 5 titled_dump))) ∧
    UdmUser.gecos r = default [] (last (omap gecos_of (drop 5 titled_dump))).
Proof.
  assert (comma ∉ lit "jane") as Hid by not_in_chars.
  assert (Forall plain_field (drop 5 titled_dump)) as Hpl.
  { repeat (apply Forall_cons; split; [key_differs|]). apply Forall_nil_2. }
  assert (block_end []) as Hend by (intros b; discriminate).
  split; [exact Hid|]. split; [exact Hpl|]. split; [exact Hend|].
  exact (record_names_are_last_lines sample_block (lit "jane")
           (lit "cn=users,dc=example,dc=org") (drop 5 titled_dump) []
           Hid Hpl Hend).
Defined.

(** ** Further properties: the output *)

Lemma split_sep_no_comma (x : str) : comma ∉ x → split_sep x = [x].
Proof.
  induction x as [|c x IH]; [done|].
  intros [Hc Hx]%not_elem_of_cons. simpl.
  rewrite decide_False by done. by rewrite IH.
Qed.

Lemma split_sep_app_comma (x rest : str) :
  comma ∉ x → split_sep (x ++ comma :: rest) = x :: split_sep rest.
Proof.
  induction x as [|c x IH]; intros Hx.
  - reflexivity.
  - apply not_elem_of_cons in Hx as [Hc Hx]. simpl.
    rewrite decide_False by done. by rewrite IH.
Qed.

Lemma split_sep_join (l : list str) :
  l ≠ [] → Forall (λ x, comma ∉ x) l → split_sep (join SEP l) = l.
Proof.
  intros Hne H. induction H as [|x l Hx Hl IH]; [done|].
  destruct l as [|y l]; [by apply split_sep_no_comma|].
  change (join SEP (x :: y :: l)) with (x ++ comma :: join SEP (y :: l)).
  rewrite split_sep_app_comma by done. by rewrite IH.
Qed.

(** X17: the CSV line of an entry splits at its commas into the login, the
    name, the directory id and the mails, when none of them holds a comma;
    for an entry without mails the line ends with the separator and the
    fourth column is empty. *)
Theorem MailUser_str_splits user :
  comma ∉ MailUser.ghnm user →
  comma ∉ MailUser.name user →
  comma ∉ MailUser.ucsnm user →
  Forall (λ ml, comma ∉ ml) (MailUser.mls user) →
  split_sep (MailUser_str user) =
  MailUser.ghnm user :: MailUser.name user :: MailUser.ucsnm user ::
  match MailUser.mls user with
  | [] => [[]]
  | _ :: _ => MailUser.mls user
  end.
Proof.
  intros Hg Hn Hu Hm. unfold MailUser_str.
  change (MailUser.ghnm user ++ SEP ++ MailUser.name user ++ SEP ++
          MailUser.ucsnm user ++ SEP ++ join SEP (MailUser.mls user))
    with (MailUser.ghnm user ++ comma :: MailUser.name user ++ comma ::
          MailUser.ucsnm user ++ comma :: join SEP (MailUser.mls user)).
  rewrite !split_sep_app_comma by done. do 3 f_equal.
  destruct (MailUser.mls user) as [|m l] eqn:E; [done|].
  by apply split_sep_join.
Qed.

Lemma MailUser_str_splits_witness :
  split_sep (MailUser_str (attach jane_user titled_rec)) =
  [lit "jd"; lit "Jane Doe"; lit "jane"; lit "jane@x"].
Proof.
  apply (MailUser_str_splits (attach jane_user titled_rec));
    try not_in_chars.
  apply Forall_singleton. not_in_chars.
Defined.

(** ** Further properties: the roster *)

Lemma parseOrgData_members_inr members : ∀ users,
  parseOrgData_members members = inr users ↔
  Forall2 (λ member user,
             member !! lit "login" = Some (MailUser.ghnm user) ∧
             member !! lit "name" = Some (MailUser.name user) ∧
             MailUser.ucsnm user = [] ∧ MailUser.mls user = [])
          members users.
Proof.
  induction members as [|m members IH]; intros users; simpl.
  - split; [by intros [= <-]; constructor | by intros ->%Forall2_nil_inv_l].
  - unfold getitem. split.
    + destruct (m !! lit "login") as [login|] eqn:El; [|done].
      destruct (m !! lit "name") as [name|] eqn:En; [|done].
      destruct (parseOrgData_members members) as [e|us] eqn:Ep; [done|].
      intros [= <-]. constructor; [done|]. by apply IH.
    + intros (u & us & (Hl & Hn & Hi & Hm) & Hrest & ->)%Forall2_cons_inv_l.
      rewrite Hl, Hn. apply IH in Hrest. rewrite Hrest.
      destruct u as [g n i ml]. simpl in *. by subst.
Qed.

(** X18: [parseOrgData] returns a roster exactly when the document has
    [members] and every member has [login] and [name]; the roster then has
    one entry per member, in the order of the document, with the member's
    login and name, no directory id and no mails. A document without
    [members] raises [KeyError]; so does a member without [login]. *)
Theorem parseOrgData_roster y :
  (∀ users,
     parseOrgData y = inr users ↔
     ∃ members,
       y !! lit "members" = Some members ∧
       Forall2 (λ member user,
                  member !! lit "login" = Some (MailUser.ghnm user) ∧
                  member !! lit "name" = Some (MailUser.name user) ∧
                  MailUser.ucsnm user = [] ∧ MailUser.mls user = [])
               members users) ∧
  (y !! lit "members" = None →
   parseOrgData y = inl (mkKeyError (lit "members"))) ∧
  (∀ members, y !! lit "members" = Some members →
     Exists (λ member, member !! lit "login" = None) members →
     ∃ k, parseOrgData y = inl (mkKeyError k)).
Proof.
  unfold parseOrgData, getitem. split; [|split].
  - intros users. destruct (y !! lit "members") as [members|].
    + rewrite parseOrgData_members_inr. split; [by eexists|].
      by intros (? & [= <-] & ?).
    + split; [done | by intros (? & ? & ?)].
  - by intros ->.
  - intros members -> Hex.
    destruct (parseOrgData_members members) as [[k]|users] eqn:E; [by eexists|].
    apply parseOrgData_members_inr in E. exfalso.
    apply Exists_exists in Hex as (m & Hm & Hlogin).
    apply list_elem_of_lookup in Hm as [i Hi].
    destruct (Forall2_lookup_l _ _ _ _ _ E Hi) as (u & _ & Hl & _).
    congruence.
Qed.

Lemma parseOrgData_roster_witness :
  parseOrgData
    {[ lit "members" :=
         [ {[ lit "login" := lit "jd"; lit "name" := lit "Jane Doe" ]} ] ]}
  = inr [jane_user].
Proof.
  apply (proj1 (parseOrgData_roster _) [jane_user]).
  eexists. split; [apply lookup_singleton_eq|].
  repeat constructor.
Defined.

Lemma readUDM_uids_comma_free file recs :
  readUDM file = Ok recs → Forall (λ r, comma ∉ UdmUser.uid r) recs.
Proof.
  intros (st & E & <-)%readUDM_run_inv.
  destruct (readUDM_run_ok file) as (st' & E' & _ & Hu & _).
  rewrite E in E'. injection E' as <-.
  apply (Forall_fmap UdmUser.uid (λ id, comma ∉ id)).
  rewrite Hu. apply Forall_forall. intros id (ln & _ & Hln)%list_elem_of_omap.
  by apply line_uid_Some in Hln as (rest & _ & Hid).
Qed.

(** X21: the [repr] of a parsed record always begins with the record's
    uid as its first column, whatever its names and mails contain, since
    a uid never holds a comma. *)
Theorem UdmUser_repr_first_column file recs r :
  readUDM file = Ok recs → r ∈ recs →
  head (split_sep (UdmUser_repr r)) = Some (UdmUser.uid r).
Proof.
  intros Hfile Hr.
  pose proof (proj1 (Forall_forall _ _) (readUDM_uids_comma_free _ _ Hfile)
                r Hr) as Hid.
  unfold UdmUser_repr.
  change (UdmUser.uid r ++ SEP ++ ?rest) with (UdmUser.uid r ++ comma :: rest).
  by rewrite split_sep_app_comma.
Qed.

Lemma UdmUser_repr_first_column_witness :
  readUDM (drop 4 titled_dump) = Ok [titled_rec] ∧
  titled_rec ∈ [titled_rec] ∧
  head (split_sep (UdmUser_repr titled_rec)) = Some (lit "jane").
Proof.
  assert (titled_rec ∈ [titled_rec]) as Hin by (by left).
  split; [reflexivity|]. split; [exact Hin|].
  exact (UdmUser_repr_first_column (drop 4 titled_dump) [titled_rec]
           titled_rec eq_refl Hin).
Defined.

Lemma subst_char_ascii c :
  (c < 128)%N ∨ c ∈ translit_keys →
  Forall (λ c', (c' < 128)%N) (subst_char translit c).
Proof.
  intros Hc. destruct (decide (c ∈ translit_keys)) as [Hin|Hnot].
  - clear Hc. unfold translit_keys in Hin. vm_compute in Hin.
    repeat (apply elem_of_cons in Hin as [->|Hin];
            [apply (bool_decide_unpack _); by vm_compute|]).
    by apply elem_of_nil in Hin.
  - destruct Hc as [Hc|?]; [|done].
    rewrite subst_char_notin by done. by apply Forall_singleton.
Qed.

(** X22: a name written with ASCII characters and characters of the
    table is normalized to pure ASCII. *)
Theorem normalizeName_ascii nm :
  Forall (λ c, (c < 128)%N ∨ c ∈ translit_keys) nm →
  Forall (λ c, (c < 128)%N) (normalizeName nm).
Proof.
  intros H. unfold normalizeName.
  set (y := if decide (take 3 nm = lit "Dr.") then drop 3 nm else nm).
  assert (Forall (λ c, (c < 128)%N ∨ c ∈ translit_keys) y) as Hy.
  { unfold y. destruct (decide _); [by apply Forall_drop | done]. }
  apply (strip_Forall [space]) in Hy.
  rewrite (replace_all_subst translit _ translit_values_clean).
  induction Hy as [|c s Hc Hs IH]; [done|].
  rewrite bind_cons. apply Forall_app. split; [by apply subst_char_ascii | done].
Qed.

Lemma normalizeName_ascii_witness :
  Forall (λ c, (c < 128)%N ∨ c ∈ translit_keys) A_Mueller ∧
  Forall (λ c, (c < 128)%N) (normalizeName A_Mueller).
Proof.
  assert (Forall (λ c, (c < 128)%N ∨ c ∈ translit_keys) A_Mueller) as H.
  { apply (bool_decide_unpack _). vm_compute. exact I. }
  split; [exact H | exact (normalizeName_ascii A_Mueller H)].
Defined.

(** ** The table, in any order *)

Lemma translit_keys_NoDup : NoDup translit_keys.
Proof. apply (bool_decide_unpack _). vm_compute. exact I. Qed.

(** With every key on one line only, the entry of a character does not
    depend on where its line stands. *)
Lemma subst_char_Permutation (t t' : list (char * str)) c :
  NoDup t.*1 → t ≡ₚ t' → subst_char t c = subst_char t' c.
Proof.
  intros Hnd Hp. induction Hp as [|[o n] l l' Hp IH|[o1 n1] [o2 n2] l|l l' l'' H1 IH1 H2 IH2].
  - done.
  - simpl in *. apply NoDup_cons in Hnd as [_ Hnd].
    destruct (decide (c = o)); [done | by apply IH].
  - simpl in *. apply NoDup_cons in Hnd as [Hne _].
    apply not_elem_of_cons in Hne as [Hne _].
    destruct (decide (c = o1)) as [->|]; [|done].
    by rewrite decide_False.
  - rewrite IH1 by done. apply IH2.
    by rewrite <- H1.
Qed.

Lemma concat_snd_Permutation (t t' : list (char * str)) :
  t ≡ₚ t' → concat t.*2 ≡ₚ concat t'.*2.
Proof.
  induction 1 as [|x l l' Hp IH|x y l|l l' l'' H1 IH1 H2 IH2]; simpl.
  - done.
  - by apply Permutation_app.
  - rewrite !(assoc_L (++)). apply Permutation_app; [|done].
    apply Permutation_app_comm.
  - by etrans.
Qed.

(** X3: the replacements of [normalizeName] are one pass that substitutes
    every character by its entry in the table, and they do not depend on
    the order of their lines: the lines applied one after the other in any
    other order give the same string. *)
Theorem translit_is_one_pass (s : str) :
  replace_all translit s = s ≫= subst_char translit ∧
  ∀ t, t ≡ₚ translit → replace_all t s = replace_all translit s.
Proof.
  split; [apply replace_all_subst, translit_values_clean|].
  intros t Hp.
  assert (Forall (λ c, c ∉ t.*1) (concat t.*2)) as Hclean.
  { rewrite (concat_snd_Permutation _ _ Hp).
    eapply Forall_impl; [apply translit_values_clean|].
    intros c Hc Hin. apply Hc. unfold translit_keys. by rewrite <- Hp. }
  rewrite (replace_all_subst t s Hclean).
  rewrite (replace_all_subst translit s translit_values_clean).
  apply list_bind_ext; [|done]. intros c.
  symmetry. apply subst_char_Permutation; [apply translit_keys_NoDup | done].
Qed.

Lemma translit_is_one_pass_witness :
  reverse translit ≡ₚ translit ∧
  replace_all (reverse translit) A_Mueller = replace_all translit A_Mueller.
Proof.
  pose proof (reverse_Permutation translit) as Hp.
  split; [exact Hp|].
  exact (proj2 (translit_is_one_pass A_Mueller) (reverse translit) Hp).
Defined.

(** ** Directory and github together *)

(** The github address never comes before a mail of the directory. *)
Lemma githubMail_head user email :
  head (MailUser.mls (githubMail user email)) =
  head (MailUser.mls user ++
        match email with Some (c :: e) => [c :: e] | _ => [] end).
Proof.
  unfold githubMail. destruct email as [[|c e]|]; try by rewrite app_nil_r.
  destruct (decide (c :: e ∈ MailUser.mls user)) as [Hin|Hin]; [|done].
  destruct (MailUser.mls user); [by apply elem_of_nil in Hin | done].
Qed.

(** X19: when [githubMail] is applied to what [udmMail] returned for an
    entry that had no mails, the first mail of the entry is the first mail
    of the first matching record that has one; it is the address github
    answered only when no matching record has a mail, and the entry has no
    mail at all when there is neither. *)
Theorem directory_mail_comes_first user udm email :
  MailUser.mls user = [] →
  head (MailUser.mls (githubMail (udmMail user udm) email)) =
  head (concat (UdmUser.mls <$>
                  filter (λ r, matches (MailUser.name user) r = true) udm)
        ++ match email with Some (c :: e) => [c :: e] | _ => [] end).
Proof.
  intros Hmls. rewrite githubMail_head.
  destruct (udmMail_effect udm user) as (_ & _ & Hm & _).
  by rewrite Hm, Hmls.
Qed.

Lemma directory_mail_comes_first_witness :
  MailUser.mls jane_user = [] ∧
  head (MailUser.mls (githubMail (udmMail jane_user [active_rec; titled_rec])
                        (Some (lit "jane@github")))) =
  Some (lit "jane@x").
Proof.
  split; [reflexivity|].
  exact (directory_mail_comes_first jane_user [active_rec; titled_rec]
           (Some (lit "jane@github")) eq_refl).
Defined.

(** X20: an entry without directory id and mails, that no record of the
    dump matches and for which github answered no address or an empty
    one, comes out of [udmMail] and [githubMail] unchanged, and its CSV
    line is its login and its name followed by two empty columns. *)
Theorem unmatched_entry_line user udm email :
  MailUser.ucsnm user = [] → MailUser.mls user = [] →
  Forall (λ r, matches (MailUser.name user) r = false) udm →
  email = None ∨ email = Some [] →
  githubMail (udmMail user udm) email = user ∧
  MailUser_str (githubMail (udmMail user udm) email) =
  MailUser.ghnm user ++ lit "," ++ MailUser.name user ++ lit ",,".
Proof.
  intros Hid Hmls Hno Hmail.
  assert (githubMail (udmMail user udm) email = user) as ->.
  { rewrite udmMail_no_match_any by done.
    unfold githubMail. by destruct Hmail as [-> | ->]. }
  split; [done|]. unfold MailUser_str. by rewrite Hid, Hmls.
Qed.

Lemma unmatched_entry_line_witness :
  MailUser.ucsnm mueller_user = [] ∧
  MailUser.mls mueller_user = [] ∧
  Forall (λ r, matches (MailUser.name mueller_user) r = false)
         [active_rec; titled_rec] ∧
  MailUser_str (githubMail (udmMail mueller_user [active_rec; titled_rec])
                  (Some [])) =
  lit "amueller," ++ A_Mueller ++ lit ",,".
Proof.
  assert (Forall (λ r, matches (MailUser.name mueller_user) r = false)
            [active_rec; titled_rec]) as H.
  { repeat (apply Forall_cons; split; [reflexivity|]). apply Forall_nil_2. }
  split; [reflexivity|]. split; [reflexivity|]. split; [exact H|].
  exact (proj2 (unmatched_entry_line mueller_user [active_rec; titled_rec]
                  (Some []) eq_refl eq_refl H (or_intror eq_refl))).
Defined.

(** ** The entry without a name *)

(** C10: a roster entry whose name is empty matches every record of the
    dump that had no [displayName] line: the record's name is the empty
    string, equal to the entry's name, so [nameMatch] is true by its exact
    comparison. The record's id and mails are attached to the entry: when
    the merge has reached the record the entry holds the record's uid and,
    after the mails it had, the record's mails; at the end of the merge
    these mails are still there, in place, followed by the mails of the
    later matching records, and the id is the record's uid unless a later
    record matches too. *)
Theorem empty_name_matches_nameless_record
    user pre recs id rest fields post :
  MailUser.name user = [] →
  comma ∉ id →
  Forall plain_field fields →
  Forall no_displayName fields →
  block_end post →
  readUDM pre = Ok recs →
  ∃ r more,
    readUDM (pre ++ dn_line id rest :: fields ++ post) = Ok (recs ++ r :: more) ∧
    UdmUser.uid r = id ∧
    UdmUser.name r = [] ∧
    MailUser.name user = UdmUser.name r ∧
    nameMatch (MailUser.name user) (UdmUser.name r) = true ∧
    MailUser.ucsnm (udmMail user (recs ++ [r])) = id ∧
    MailUser.mls (udmMail user (recs ++ [r])) =
      MailUser.mls (udmMail user recs) ++ UdmUser.mls r ∧
    MailUser.mls (udmMail user (recs ++ r :: more)) =
      MailUser.mls (udmMail user recs) ++ UdmUser.mls r ++
      concat (UdmUser.mls <$>
                filter (λ r', matches (MailUser.name user) r' = true) more) ∧
    MailUser.ucsnm (udmMail user (recs ++ r :: more)) =
      default id
        (UdmUser.uid <$>
           last (filter (λ r', matches (MailUser.name user) r' = true) more)) ∧
    udmMail user (recs ++ r :: more) =
      udmMail (attach (udmMail user recs) r) more.
Proof.
  intros Hname Hid Hpl Hnd Hend Hpre.
  destruct (readUDM_block_in_context pre id rest fields post Hid Hpl Hend)
    as (recs' & r & more & Hpre' & Hr & Hfile).
  rewrite Hpre in Hpre'. injection Hpre' as <-.
  destruct (parse_fields_effect fields (UdmUser.init id []))
    as (r'' & Er & Huid & Hn & _).
  rewrite Er in Hr. injection Hr as ->. simpl in Huid, Hn.
  assert (UdmUser.name r = []) as Hnm.
  { rewrite Hn. clear -Hnd. unfold no_displayName in Hnd.
    replace (omap displayName_of fields) with (@nil str); [done|].
    induction Hnd as [|ln fields Hln _ IH]; [done|].
    change (omap displayName_of (ln :: fields))
      with (from_option (λ v, v :: omap displayName_of fields)
              (omap displayName_of fields) (displayName_of ln)).
    rewrite <- IH. unfold displayName_of, field_of, classify.
    rewrite decide_False by done. by repeat case_decide. }
  assert (matches (MailUser.name user) r = true) as Hmatch.
  { unfold matches. rewrite Hname, Hnm. reflexivity. }
  assert (∀ l, udmMail user (recs ++ l) = udmMail (udmMail user recs) l) as Happ.
  { intros l. unfold udmMail. by rewrite foldl_app. }
  assert (∀ l,
    let hits := filter (λ r', matches (MailUser.name user) r' = true) l in
    MailUser.mls (udmMail user (recs ++ r :: l)) =
      MailUser.mls (udmMail user recs) ++ UdmUser.mls r ++
      concat (UdmUser.mls <$> hits) ∧
    MailUser.ucsnm (udmMail user (recs ++ r :: l)) =
      default (UdmUser.uid r) (UdmUser.uid <$> last hits)) as Hgen.
  { intros l hits. rewrite Happ.
    destruct (udmMail_effect (r :: l) (udmMail user recs))
      as (_ & _ & Hm & Hu).
    rewrite udmMail_name in Hm, Hu.
    rewrite filter_cons_True in Hm, Hu by done.
    rewrite Hm, Hu. split; [done|].
    rewrite <- !fmap_last. simpl. apply last_cons_default. }
  exists r, more. rewrite Huid in *.
  destruct (Hgen []) as [Hm1 Hu1]. destruct (Hgen more) as [Hm2 Hu2].
  simpl in Hm1, Hu1. rewrite app_nil_r in Hm1.
  repeat split; try done.
  - by rewrite Hname, Hnm.
  - by rewrite Hname, Hnm.
  - rewrite Happ, udmMail_cons. f_equal. apply udmMail_step_match.
    rewrite udmMail_name. exact Hmatch.
Qed.

Lemma empty_name_matches_nameless_record_witness :
  MailUser.name (MailUser.init (lit "ghost") []) = [] ∧
  (comma ∉ lit "jdoe") ∧
  Forall plain_field [lit "  e-mail: j@x"] ∧
  Forall no_displayName [lit "  e-mail: j@x"] ∧
  block_end [lit "DN: uid=other,dc=x"] ∧
  readUDM [] = Ok [] ∧
  ∃ r more,
    readUDM ([] ++ dn_line (lit "jdoe") (lit "dc=x")
                :: [lit "  e-mail: j@x"] ++ [lit "DN: uid=other,dc=x"])
      = Ok ([] ++ r :: more) ∧
    MailUser.ucsnm (udmMail (MailUser.init (lit "ghost") []) ([] ++ [r])) =
      lit "jdoe" ∧
    MailUser.mls (udmMail (MailUser.init (lit "ghost") []) ([] ++ [r])) =
      MailUser.mls (udmMail (MailUser.init (lit "ghost") []) []) ++ UdmUser.mls r.
Proof.
  assert (comma ∉ lit "jdoe") as Hid by not_in_chars.
  assert (Forall plain_field [lit "  e-mail: j@x"]) as Hpl
    by (apply Forall_singleton; key_differs).
  assert (Forall no_displayName [lit "  e-mail: j@x"]) as Hnd
    by (apply Forall_singleton; key_differs).
  assert (block_end [lit "DN: uid=other,dc=x"]) as Hend
    by (intros b [= <-]; reflexivity).
  split; [reflexivity|]. split; [exact Hid|]. split; [exact Hpl|].
  split; [exact Hnd|]. split; [exact Hend|]. split; [reflexivity|].
  destruct (empty_name_matches_nameless_record (MailUser.init (lit "ghost") [])
              [] [] (lit "jdoe") (lit "dc=x") [lit "  e-mail: j@x"]
              [lit "DN: uid=other,dc=x"]
              eq_refl Hid Hpl Hnd Hend eq_refl)
    as (r & more & Hfile & _ & _ & _ & _ & Hu & Hm & _).
  exists r, more. split; [exact Hfile|]. split; [exact Hu | exact Hm].
Defined.
